(** * MonPar: a shallow embedding of the parser-combinator library

    The library is a single TypeScript module.  A parser is a function value
    from an input string to a list holding zero or one pair
    [(value, remainder)].  The embedding keeps that list, keeps the function
    values' declared arity (the laziness test of [alt] reads it), and runs
    every call in a small monad that accounts for the three things a call
    can do besides returning: change the store captured by a closure, throw,
    or still be running when its budget of loop iterations ends (the
    [while] of [many], a function passed in that does not return).

    Strings are sequences of code units, here [ascii]; a character is a
    string of one unit, as in the source.  The functions a caller passes
    in to compute a value ([fn] of [fmap], [bind] and [liftAs], [pred] of
    [sat]) are functions of Rocq; the deferred references of [alt] and
    [alts] are computations, so that a probe can count how often it is
    forced.

    Two facts of the host are part of the model.  An array has a largest
    length, which differs from one engine to the next, and [push] on an
    array of that length throws; [many] collects its values with [push].
    And [undefined] is a value like any other: a parser may produce it
    (the library's [tap] does), and [unpack] also returns it to say that
    there is no value. *)

From Stdlib Require Import String Ascii List Arith NArith Lia Bool.
Import ListNotations.

Set Implicit Arguments.

Local Open Scope string_scope.
Local Open Scope list_scope.

(** The exceptions the library can raise: [TypeError] on applying a value
    that is not a function or destructuring a missing element, and
    [RangeError] ("Invalid array length") on growing an array past the
    host's limit. *)
Inductive JsError : Type := TypeError | RangeError.

(** The largest length an array can have on the host: [2^32 - 1] by the
    language, less on the engines, which bound it by memory. *)
Class ArrayLimit : Type := array_limit : N.

(** The bound of the language itself. *)
#[global] Instance language_limit : ArrayLimit | 100 := 4294967295%N.

(** Which values of a type are the [undefined] of the host. *)
Class JsValue (T : Type) : Type := is_undefined : T -> bool.

(** A string and an array are never [undefined]; [unit] is the type of
    [undefined] itself, the value [tap] produces. *)
#[global] Instance JsValue_string : JsValue string := fun _ => false.
#[global] Instance JsValue_list (A : Type) : JsValue (list A) := fun _ => false.
#[global] Instance JsValue_unit : JsValue unit := fun _ => true.

(** A value of type [T | undefined]: [None] is [undefined], so a value of
    [T] that is [undefined] is [None] as well. *)
Definition or_undefined {T} {J : JsValue T} (v : T) : option T :=
  if is_undefined v then None else Some v.

(* ===================================================================== *)
(** ** Strings, as the code uses them *)
(* ===================================================================== *)

(** [s.slice(b, e)] for indices that are natural numbers: the code units
    from [b] up to, not including, [e]; both ends are clamped to the
    string. *)
Definition slice (s : string) (b e : nat) : string := substring b (e - b) s.

(** [s.slice(b)]. *)
Definition slice_from (s : string) (b : nat) : string :=
  slice s b (String.length s).

(** [s[i]]: a string of one code unit, or [undefined] past the end. *)
Definition index (s : string) (i : nat) : option string :=
  match String.get i s with
  | Some c => Some (String c EmptyString)
  | None => None
  end.

(** [x || d] on a possibly undefined string: every string [s[i]] returns is
    one code unit long, hence truthy. *)
Definition or_else (x : option string) (d : string) : string :=
  match x with
  | Some s => if (String.length s =? 0)%nat then d else s
  | None => d
  end.

(** [/[...]/.test(c)] for a character class: some code unit of [c] is in
    the class. *)
Definition class_test (cls : ascii -> bool) (c : string) : bool :=
  existsb cls (list_ascii_of_string c).

Section Monpar.

(** The store that closures may read and write (a probe's counter, a log),
    and the host's array limit. *)
Context {W : Type} {limit : ArrayLimit}.

(* ===================================================================== *)
(** ** Computations *)
(* ===================================================================== *)

(** What running a piece of code for a bounded number of loop iterations
    gives. *)
Inductive Res (A : Type) : Type :=
| Done (a : A) (w : W)          (* returned [a], leaving store [w] *)
| Throw (e : JsError) (w : W)   (* an uncaught exception *)
| OutOfFuel.                    (* still running when the budget ended *)

Arguments Throw {A} e w.
Arguments OutOfFuel {A}.

(** A computation: given a budget of loop iterations and a store. *)
Definition Comp (A : Type) : Type := nat -> W -> Res A.

Definition ret {A} (a : A) : Comp A := fun _ w => Done a w.

Definition throw {A} (e : JsError) : Comp A := fun _ w => Throw e w.

Definition bindC {A B} (c : Comp A) (k : A -> Comp B) : Comp B :=
  fun fuel w =>
    match c fuel w with
    | Done a w' => k a fuel w'
    | Throw e w' => Throw e w'
    | OutOfFuel => OutOfFuel
    end.

Notation "x <- c ;; k" := (bindC c (fun x => k))
  (at level 61, c at next level, right associativity).

(* ===================================================================== *)
(** ** Fundamental blocks *)
(* ===================================================================== *)

(** [type ParserRes<T> = [T, string][]]: the empty list is failure. *)
Definition ParserRes (T : Type) : Type := list (T * string).

(** [type Parser<T> = (inp: string) => ParserRes<T>].  The library writes
    parsers as arrow functions of one parameter ([inp => ...]) and, in
    [empty], of none ([() => []]); the run-time test [isImmediate] tells the
    two apart, so the value records which it is. *)
Inductive Parser (T : Type) : Type :=
| Fn1 (body : string -> Comp (ParserRes T))   (* inp => body *)
| Fn0 (body : Comp (ParserRes T)).            (* () => body *)

(** [parser(inp)]: a function of no parameter ignores the argument. *)
Definition call {T} (parser : Parser T) (inp : string) : Comp (ParserRes T) :=
  match parser with
  | Fn1 body => body inp
  | Fn0 body => body
  end.

Coercion call : Parser >-> Funclass.

(** [parser.length], the declared number of parameters. *)
Definition fn_length {T} (parser : Parser T) : nat :=
  match parser with
  | Fn1 _ => 1
  | Fn0 _ => 0
  end.

(** [const parserHasFailed = result => result.length === 0]. *)
Definition parserHasFailed {T} (result : ParserRes T) : bool :=
  (List.length result =? 0)%nat.

(** *** Thunks *)

(** [type LazyVal<A> = (() => A) | A], at [A = Parser<T>]. A deferred
    reference is a function of no parameter whose call, an arbitrary
    computation, yields the parser. *)
Inductive LazyVal (T : Type) : Type :=
| Deferred (thunk : Comp (Parser T))
| Immediate (parser : Parser T).

(** What [isImmediate] can see of a value. *)
Record JsShape : Type := mkShape {
  typeof : string;
  length : option nat   (* [None]: the property is undefined *)
}.

Definition shape_of {T} (t : LazyVal T) : JsShape :=
  match t with
  | Deferred _ => mkShape "function" (Some 0)
  | Immediate parser => mkShape "function" (Some (fn_length parser))
  end.

(** [x != 0] on a [length] property. *)
Definition neq0 (x : option nat) : bool :=
  match x with
  | Some n => negb (n =? 0)%nat
  | None => true
  end.

(** [typeof t != "function" || t.length != 0]. *)
Definition isImmediate (t : JsShape) : bool :=
  negb (typeof t =? "function")%string || neq0 (length t).

(** What [force] hands back.  By its type it is a parser; at run time it is
    whatever [t()] returned. *)
Inductive Forced (T : Type) : Type :=
| IsParser (parser : Parser T)
| IsList (result : ParserRes T).

(** [const force = t => isImmediate(t) ? t : t()]. *)
Definition force {T} (t : LazyVal T) : Comp (Forced T) :=
  if isImmediate (shape_of t) then
    match t with
    | Immediate parser => ret (IsParser parser)
    | Deferred thunk =>              (* not reached: a thunk has length 0 *)
        parser <- thunk ;; ret (IsParser parser)
    end
  else
    match t with
    | Deferred thunk => parser <- thunk ;; ret (IsParser parser)
    | Immediate (Fn0 body) =>        (* the parser's own body runs *)
        result <- body ;; ret (IsList result)
    | Immediate (Fn1 _) =>           (* not reached: length 1 is immediate *)
        throw TypeError
    end.

(** [f(inp)] for the value [force] returned: a list is not callable. *)
Definition apply {T} (f : Forced T) (inp : string) : Comp (ParserRes T) :=
  match f with
  | IsParser parser => parser inp
  | IsList _ => throw TypeError
  end.

(** *** Functor *)

(** [fmap(fn, parser) = inp => { const res = parser(inp);
      if (parserHasFailed(res)) return []; const [v, out] = res[0];
      return [[fn(v), out]] }].  The last branch of the [match] is not
    reached: a list that has not failed has a first element. *)
Definition fmap {A B} (fn : A -> B) (parser : Parser A) : Parser B :=
  Fn1 (fun inp =>
    res <- parser inp ;;
    if parserHasFailed res then ret []
    else
      match res with
      | (v, out) :: _ => ret [(fn v, out)]
      | [] => throw TypeError
      end).

(** *** Applicative *)

(** [pure = a => inp => [[a, inp]]]. *)
Definition pure {T} (a : T) : Parser T := Fn1 (fun inp => ret [(a, inp)]).

(** [empty = () => () => []]: the parser returned declares no parameter. *)
Definition empty {T} : Parser T := Fn0 (ret []).

(** *** Monad *)

(** [bind(parser, fn) = inp => { const res = parser(inp);
      if (parserHasFailed(res)) return []; const [v, out] = res[0];
      return fn(v)(out) }]. *)
Definition bind {A B} (parser : Parser A) (fn : A -> Parser B) : Parser B :=
  Fn1 (fun inp =>
    res <- parser inp ;;
    if parserHasFailed res then ret []
    else
      match res with
      | (v, out) :: _ => fn v out
      | [] => throw TypeError
      end).

(** [ap(parserFn, parserA) = bind(parserFn, fn => fmap(fn, parserA))]. *)
Definition ap {A B} (parserFn : Parser (A -> B)) (parserA : Parser A) : Parser B :=
  bind parserFn (fun fn => fmap fn parserA).

(* ===================================================================== *)
(** ** Primitives *)
(* ===================================================================== *)

(** [liftAs] takes a curried function and as many parsers as it has
    arguments; the parsers' value types may differ, so they come as a
    list indexed by those types. *)
Fixpoint arrows (As : list Type) (T : Type) : Type :=
  match As with
  | [] => T
  | A :: As' => A -> arrows As' T
  end.

Inductive Parsers : list Type -> Type :=
| PNil : Parsers []
| PCons : forall (A : Type) (As : list Type),
    Parser A -> Parsers As -> Parsers (A :: As).

Definition phead {A As} (fns : Parsers (A :: As)) : Parser A :=
  match fns in Parsers l
        return match l with [] => unit | A' :: _ => Parser A' end with
  | PNil => tt
  | PCons p _ => p
  end.

Definition ptail {A As} (fns : Parsers (A :: As)) : Parsers As :=
  match fns in Parsers l
        return match l with [] => unit | _ :: As' => Parsers As' end with
  | PNil => tt
  | PCons _ rest => rest
  end.

(** [fns.reduce((a, b) => ap(a, b), init)]. *)
Fixpoint reduce_ap {As T} (init : Parser (arrows As T)) : Parsers As -> Parser T :=
  match As return Parser (arrows As T) -> Parsers As -> Parser T with
  | [] => fun acc _ => acc
  | A :: As' => fun acc fns => reduce_ap (ap acc (phead fns)) (ptail fns)
  end init.

(** The type [fn] must have for [liftAs(fn, ...fns)] to be well typed: with
    no parser, [fn] is returned as the parser. *)
Definition lifted (As : list Type) (T : Type) : Type :=
  match As with
  | [] => Parser T
  | _ :: _ => arrows As T
  end.

(** [liftAs(fn, ...fns)]:
    [if (fns.length === 0) return fn;
     else if (fns.length === 1) return fmap(fn, fns[0]);
     return fns.slice(1).reduce((a, b) => ap(a, b), fmap(fn, fns[0]))]. *)
Definition liftAs {As T} : lifted As T -> Parsers As -> Parser T :=
  match As return lifted As T -> Parsers As -> Parser T with
  | [] => fun fn _ => fn                                  (* fn *)
  | A :: As' => fun fn fns =>
      let first : Parser (arrows As' T) := fmap fn (phead fns) in
      match As' as l
            return Parser (arrows l T) -> Parsers l -> Parser T with
      | [] => fun first _ => first                        (* fn <$> p0 *)
      | _ :: _ => fun first rest =>                       (* fn <$> p0 <*> ... <*> pn *)
          reduce_ap first rest
      end first (ptail fns)
  end.

(** Parse through the first parser if possible, else through the second:
    [alt(parserA, parserB) = inp => { const res = parserA(inp);
      if (parserHasFailed(res)) return force(parserB)(inp); return res }]. *)
Definition alt {T} (parserA : Parser T) (parserB : LazyVal T) : Parser T :=
  Fn1 (fun inp =>
    res <- parserA inp ;;
    if parserHasFailed res then (f <- force parserB ;; apply f inp)
    else ret res).

(** [parsers.reduce((acc, curr) => () => alt(acc(), curr))()]: the
    reduction builds a thunk, which is then called.  [reduce] without a
    start value throws on the empty array. *)
Definition alts {T} (parsers : list (Comp (Parser T))) : Comp (Parser T) :=
  match parsers with
  | [] => throw TypeError
  | first :: rest =>
      fold_left
        (fun acc curr => (a <- acc ;; ret (alt a (Deferred curr))))
        rest first
  end.

(** [result.push(v)]: the array with [v] at its end, or nothing when the
    array is at the host's limit and [push] throws [RangeError]. *)
Definition push {T} (result : list T) (v : T) : option (list T) :=
  if (N.of_nat (List.length result) <? array_limit)%N
  then Some (result ++ [v])
  else None.

(** The loop of [many],
    [while (out.length !== 0) { const [v, remainingInp] = out[0];
       result.push(v); currentInp = remainingInp;
       out = parser(currentInp) }
     return [[result, currentInp]]],
    entered with the last outcome [out]; an iteration costs one unit of
    budget. *)
Fixpoint many_while {T} (parser : Parser T) (fuel : nat)
    (out : ParserRes T) (currentInp : string) (result : list T) (w : W)
    : Res (ParserRes (list T)) :=
  match out with
  | [] => Done [(result, currentInp)] w
  | (v, remainingInp) :: _ =>
      match fuel with
      | 0 => OutOfFuel
      | S fuel' =>
          match push result v with
          | None => Throw RangeError w
          | Some result' =>
              match parser remainingInp fuel' w with
              | Done out' w' =>
                  many_while parser fuel' out' remainingInp result' w'
              | Throw e w' => Throw e w'
              | OutOfFuel => OutOfFuel
              end
          end
      end
  end.

(** 0..n: [many(parser) = inp => { let currentInp = inp; const result = [];
      let out = parser(currentInp); while ... }]. *)
Definition many {T} (parser : Parser T) : Parser (list T) :=
  Fn1 (fun inp fuel w =>
    match parser inp fuel w with
    | Done out w' => many_while parser fuel out inp [] w'
    | Throw e w' => Throw e w'
    | OutOfFuel => OutOfFuel
    end).

(** 1..n: [some(parser) = inp => { const res = many(parser)(inp);
      const [[v]] = res; if (v.length === 0) return []; return res }]. *)
Definition some {T} (parser : Parser T) : Parser (list T) :=
  Fn1 (fun inp =>
    res <- many parser inp ;;
    match res with
    | (v, _) :: _ =>
        if (List.length v =? 0)%nat then ret [] else ret res
    | [] => throw TypeError
    end).

(** [take = inp => inp.length > 0 ? [[inp[0], inp.slice(1)]] : []].  With
    a positive length [inp[0]] is defined. *)
Definition take : Parser string :=
  Fn1 (fun inp =>
    if (0 <? String.length inp)%nat then
      match index inp 0 with
      | Some c => ret [(c, slice_from inp 1)]
      | None => throw TypeError
      end
    else ret []).

(** [peek = inp => [[inp[0] || "", inp]]]. *)
Definition peek : Parser string :=
  Fn1 (fun inp => ret [(or_else (index inp 0) "", inp)]).

(** [Number] is the host's conversion of a string to a number. *)
Variable number : Type.
Variable Number : string -> number.

(** [takeDigit = liftAs((x: string) => Number(x), take)]. *)
Definition takeDigit : Parser number :=
  liftAs (As := [string : Type]) Number (PCons take PNil).

(** [sentence(str) = inp => { if (inp.length < str.length) return [];
      const [former, latter] =
        [inp.slice(0, str.length), inp.slice(str.length, inp.length)];
      return former === str ? [[former, latter]] : [] }]. *)
Definition sentence (str : string) : Parser string :=
  Fn1 (fun inp =>
    if (String.length inp <? String.length str)%nat then ret []
    else
      let former := slice inp 0 (String.length str) in
      let latter := slice inp (String.length str) (String.length inp) in
      if (former =? str)%string then ret [(former, latter)] else ret []).

(** [sat(pred) = bind(take, x => pred(x) ? pure(x) : empty())]. *)
Definition sat (pred : string -> bool) : Parser string :=
  bind take (fun x => if pred x then pure x else empty).

(** [eq = x => y => x === y], on strings. *)
Definition eq (x y : string) : bool := (x =? y)%string.

(** The classes of [/[a-zA-Z]/], [/[0-9]/] and [/[\n\t ]/]. *)

Definition is_alpha (c : ascii) : bool :=
  let n := nat_of_ascii c in
  ((97 <=? n) && (n <=? 122) || (65 <=? n) && (n <=? 90))%nat.

Definition is_numeric (c : ascii) : bool :=
  let n := nat_of_ascii c in ((48 <=? n) && (n <=? 57))%nat.

Definition is_blank (c : ascii) : bool :=
  let n := nat_of_ascii c in ((n =? 10) || (n =? 9) || (n =? 32))%nat.

Definition alpha : Parser string := sat (class_test is_alpha).
Definition numeric : Parser string := sat (class_test is_numeric).
Definition aphaNumeric : Parser string := alt alpha (Deferred (ret numeric)).
Definition space : Parser string := sat (eq " ").
Definition char (c : string) : Parser string := sat (eq c).

(** Strips whitespace, tabs and newlines away around the given token. *)
Definition whitespace : Parser string := sat (class_test is_blank).

(** [token(parser) = liftAs(() => res => () => res,
                            many(whitespace), parser, many(whitespace))]. *)
Definition token {T} (parser : Parser T) : Parser T :=
  liftAs (As := [list string : Type; T; list string : Type])
    (fun _ res _ => res)
    (PCons (many whitespace) (PCons parser (PCons (many whitespace) PNil))).

(** [tap(tapFn) = inp => { tapFn(inp); return [[undefined, inp]] }]. *)
Definition tap (tapFn : string -> Comp unit) : Parser unit :=
  Fn1 (fun inp => _ <- tapFn inp ;; ret [(tt, inp)]).

(** [unpack(parser)(inp)]:
    [const res = parser(inp); if (parserHasFailed(res)) return;
     if (res[0][1] !== "") return; return res[0][0]].
    The result is of type [T | undefined]: [None] is [undefined], and a
    value [res[0][0]] that is [undefined] comes back as [undefined]. *)
Definition unpack {T} {J : JsValue T} (parser : Parser T) (inp : string)
    : Comp (option T) :=
  res <- parser inp ;;
  if parserHasFailed res then ret None
  else
    match res with
    | (v, rest) :: _ =>
        if negb (rest =? "")%string then ret None   (* input left over *)
        else ret (or_undefined v)
    | [] => throw TypeError
    end.

(* ===================================================================== *)
(** ** Vocabulary of the specification *)
(* ===================================================================== *)

(** [c], started in store [w], returns [a] and leaves [w']: every budget
    from some point on gives that answer. *)
Definition Returns {A} (c : Comp A) (w : W) (a : A) (w' : W) : Prop :=
  exists n, forall fuel, n <= fuel -> c fuel w = Done a w'.

(** [c], started in [w], never comes back. *)
Definition Diverges {A} (c : Comp A) (w : W) : Prop :=
  forall fuel, c fuel w = OutOfFuel.

(** The parser returns on every input. *)
Definition Halts {T} (p : Parser T) : Prop :=
  forall s w, exists r w', Returns (p s) w r w'.

(** Every success leaves a remainder strictly shorter than the input. *)
Definition Consuming {T} (p : Parser T) : Prop :=
  forall s w v rest tl w',
    Returns (p s) w ((v, rest) :: tl) w' ->
    String.length rest < String.length s.

(** [c], started in [w], throws [e] and leaves [w']. *)
Definition Throws {A} (c : Comp A) (w : W) (e : JsError) (w' : W) : Prop :=
  exists n, forall fuel, n <= fuel -> c fuel w = Throw e w'.


(** [Repeats p s w vs rest w']: applying [p] to [s] and then to the
    successive remainders succeeds with the values [vs], in this order,
    and then fails on [rest]. *)
Inductive Repeats {T} (p : Parser T)
  : string -> W -> list T -> string -> W -> Prop :=
| Repeats_stop : forall s w w',
    Returns (p s) w [] w' ->
    Repeats p s w [] s w'
| Repeats_step : forall s w v s1 tl w1 vs rest w',
    Returns (p s) w ((v, s1) :: tl) w1 ->
    Repeats p s1 w1 vs rest w' ->
    Repeats p s w (v :: vs) rest w'.


(** The array limit as a number of elements. *)
Definition within_limit (n : nat) : Prop := (N.of_nat n <= array_limit)%N.

(** What [some] makes of the outcome of [many]. *)
Definition some_of {T} (vs : list T) (rest : string) : ParserRes (list T) :=
  match vs with
  | [] => []
  | _ :: _ => [(vs, rest)]
  end.

(** Ordered choice, written out: with the outcome [res] of the alternatives
    tried so far, the remaining deferred alternatives are forced one at a
    time, each only once [res] is a failure. *)
Fixpoint try_rest {T} (res : ParserRes T) (rest : list (Comp (Parser T)))
    (inp : string) : Comp (ParserRes T) :=
  match rest with
  | [] => ret res
  | t :: rest' =>
      if parserHasFailed res then
        (q <- t ;; res' <- q inp ;; try_rest res' rest' inp)
      else try_rest res rest' inp
  end.

(** The parser [alts] builds once its first alternative has been forced. *)
Definition alts_from {T} (first : Parser T) (rest : list (Comp (Parser T)))
    : Parser T :=
  fold_left (fun acc curr => alt acc (Deferred curr)) rest first.

(** [s] is not empty and [pred] holds of [s[0]]. *)
Definition first_satisfies (pred : string -> bool) (s : string) : Prop :=
  exists x, index s 0 = Some x /\ pred x = true.

(** Whenever the parser returns, its list holds at most one outcome. *)
Definition AtMostOne {T} (p : Parser T) : Prop :=
  forall inp fuel w r w', p inp fuel w = Done r w' -> List.length r <= 1.

(** The parsers built from the exported primitives and combinators. *)
Inductive Built : forall T : Type, Parser T -> Prop :=
| Built_pure : forall T (a : T), Built (pure a)
| Built_empty : forall T, Built (@empty T)
| Built_bind : forall A B (p : Parser A) (f : A -> Parser B),
    Built p -> (forall v, Built (f v)) -> Built (bind p f)
| Built_ap : forall A B (pf : Parser (A -> B)) (pa : Parser A),
    Built pf -> Built pa -> Built (ap pf pa)
| Built_liftAs0 : forall T (fn : Parser T),
    Built fn -> Built (liftAs (As := []) fn PNil)
| Built_liftAs : forall A As T (fn : arrows (A :: As) T) fns,
    AllBuilt fns -> Built (liftAs (As := A :: As) (T := T) fn fns)
| Built_alt_immediate : forall T (p q : Parser T),
    Built p -> Built q -> Built (alt p (Immediate q))
| Built_alt_deferred : forall T (p : Parser T) (t : Comp (Parser T)),
    Built p ->
    (forall fuel w q w', t fuel w = Done q w' -> Built q) ->
    Built (alt p (Deferred t))
| Built_alts : forall T (parsers : list (Comp (Parser T))) fuel w p w',
    (forall t, In t parsers ->
               forall fuel w q w', t fuel w = Done q w' -> Built q) ->
    alts parsers fuel w = Done p w' ->
    Built p
| Built_many : forall T (p : Parser T), Built p -> Built (many p)
| Built_some : forall T (p : Parser T), Built p -> Built (some p)
| Built_take : Built take
| Built_peek : Built peek
| Built_sat : forall pred, Built (sat pred)
| Built_char : forall c, Built (char c)
| Built_sentence : forall str, Built (sentence str)
| Built_whitespace : Built whitespace
| Built_token : forall T (p : Parser T), Built p -> Built (token p)
with AllBuilt : forall As : list Type, Parsers As -> Prop :=
| AllBuilt_nil : AllBuilt PNil
| AllBuilt_cons : forall A As (p : Parser A) (ps : Parsers As),
    Built p -> AllBuilt ps -> AllBuilt (PCons p ps).

End Monpar.

Arguments Throw {W A} e w.
Arguments OutOfFuel {W A}.

Notation "x <- c ;; k" := (bindC c (fun x => k))
  (at level 61, c at next level, right associativity).

(* ===================================================================== *)
(** ** The earlier revision of the choice combinators *)
(* ===================================================================== *)

(** In the revision kept as [src/index.ts] the second argument of [alt] is
    always a thunk and is called without any test. *)
Module Index.
Section Choice.
Context {W : Type}.

Definition alt {T} (parserA : Parser T) (parserB : Comp (W := W) (Parser T))
    : Parser T :=
  Fn1 (fun inp =>
    res <- parserA inp ;;
    if (List.length res =? 0)%nat then (q <- parserB ;; q inp)
    else ret res).

Definition alts {T} (parsers : list (Comp (W := W) (Parser T)))
    : Comp (Parser T) :=
  match parsers with
  | [] => throw TypeError
  | first :: rest =>
      fold_left (fun acc curr => (a <- acc ;; ret (alt a curr))) rest first
  end.

(** The earlier [liftAs] nests [bind] instead of folding with [ap]:
    [if (fns.length === 0) return fn;
     else if (fns.length === 1) return fmap(fn, fns[0]);
     else return bind(fns[0], res => liftAs(fn(res), ...fns.slice(1)))].
    [liftAs_from] is the function on one parser or more. *)
Fixpoint liftAs_from (As : list Type)
    : forall A T : Type,
        arrows (A :: As) T -> Parsers (W := W) (A :: As) -> Parser T :=
  match As as l
        return forall A T : Type,
                 arrows (A :: l) T -> Parsers (A :: l) -> Parser T with
  | [] => fun A T fn fns => fmap fn (phead fns)
  | A' :: As' => fun A T fn fns =>
      bind (phead fns) (fun res => @liftAs_from As' A' T (fn res) (ptail fns))
  end.

Definition liftAs {As T} : lifted As T -> Parsers (W := W) As -> Parser T :=
  match As return lifted As T -> Parsers As -> Parser T with
  | [] => fun fn _ => fn
  | A :: As' => fun fn fns => @liftAs_from As' A T fn fns
  end.

End Choice.
End Index.

(* ===================================================================== *)
(** ** Stores used to run the model *)
(* ===================================================================== *)

Definition nl : string := String (ascii_of_nat 10) "".
Definition tab : string := String (ascii_of_nat 9) "".

(** A store with nothing in it, for parsers that have no effect. *)
Definition run {A} (c : Comp (W := unit) A) : Res (W := unit) A := c 100 tt.

(** A deferred reference that records each forcing: the store is the log
    of the probes forced so far, and probe [i] appends [i] to it before
    handing over its parser. *)
Definition probe {T} (i : nat) (p : Parser (W := list nat) T)
    : Comp (W := list nat) (Parser T) :=
  fun _ log => Done p (log ++ [i]).

(** A parser that returns on every input and leaves the log alone. *)
Definition Quiet {T} (p : Parser (W := list nat) T) : Prop :=
  forall inp fuel log, exists r, p inp fuel log = Done r log.

(** The alternatives [qs], each behind the probe of its number. *)
Definition probes {T} (qs : list (nat * Parser (W := list nat) T))
    : list (Comp (W := list nat) (Parser T)) :=
  map (fun iq => probe (fst iq) (snd iq)) qs.

(* ===================================================================== *)
(** ** Vocabulary for the properties of single functions *)
(* ===================================================================== *)

(** Two parsers that do the same on every input, budget and store. *)
Definition same_parser {W T} (p q : Parser (W := W) T) : Prop :=
  forall inp fuel w, p inp fuel w = q inp fuel w.

(** Two constructions that end alike: the same store and parsers that do
    the same, or the same exception, or no answer from either. *)
Definition same_construction {W T}
    (a b : Res (W := W) (Parser (W := W) T)) : Prop :=
  match a, b with
  | Done p w, Done q w' => w = w' /\ same_parser p q
  | Throw e w, Throw e' w' => e = e' /\ w = w'
  | OutOfFuel, OutOfFuel => True
  | _, _ => False
  end.

(** The loop of [many] entered at [s] with the values [acc] collected so
    far: [many parser inp] is [many_from parser inp []]. *)
Definition many_from {W} {limit : ArrayLimit} {T} (parser : Parser (W := W) T)
    (s : string) (acc : list T) : Comp (W := W) (ParserRes (list T)) :=
  fun fuel w =>
    match parser s fuel w with
    | Done out w' => many_while parser fuel out s acc w'
    | Throw e w' => Throw e w'
    | OutOfFuel => OutOfFuel
    end.

(** A string of [n] characters. *)
Fixpoint string_of_length (n : nat) : string :=
  match n with
  | 0 => ""
  | S n' => String "a" (string_of_length n')
  end.

(** The characters of a string, each as a string of one unit. *)
Definition chars (s : string) : list string :=
  map (fun c => String c "") (list_ascii_of_string s).

(** The longest run of leading characters that satisfy [pred], and what
    follows it. *)
Fixpoint span_values (pred : string -> bool) (s : string) : list string :=
  match s with
  | "" => []
  | String c rest =>
      if pred (String c "") then String c "" :: span_values pred rest else []
  end.

Fixpoint span_rest (pred : string -> bool) (s : string) : string :=
  match s with
  | "" => ""
  | String c rest => if pred (String c "") then span_rest pred rest else s
  end.

(** The input without its leading blanks, and these blanks. *)
Definition skip_blanks (s : string) : string :=
  span_rest (class_test is_blank) s.

Definition blanks (s : string) : list string :=
  span_values (class_test is_blank) s.

(** [rest] is what is left of [inp] once a prefix is taken off. *)
Definition Suffix (rest inp : string) : Prop :=
  exists pre, inp = (pre ++ rest)%string.

(** Every remainder the parser returns is a suffix of its input. *)
Definition SuffixPreserving {W T} (p : Parser (W := W) T) : Prop :=
  forall inp fuel w r w',
    p inp fuel w = Done r w' ->
    forall v rest, In (v, rest) r -> Suffix rest inp.

(** Every parser of the list is suffix preserving. *)
Fixpoint AllSuffixPreserving {W} (As : list Type)
    : Parsers (W := W) As -> Prop :=
  match As return Parsers As -> Prop with
  | [] => fun _ => True
  | A :: As' => fun fns =>
      SuffixPreserving (phead fns) /\ AllSuffixPreserving (ptail fns)
  end.

(* ===================================================================== *)
(** ** Strings *)
(* ===================================================================== *)

Lemma substring_whole (s : string) : substring 0 (String.length s) s = s.
Proof.
  induction s as [| c s IH]; simpl; [reflexivity | now rewrite IH].
Qed.

Lemma slice_from_tail (c : ascii) (s : string) :
  slice_from (String c s) 1 = s.
Proof.
  unfold slice_from, slice. simpl. rewrite Nat.sub_0_r. apply substring_whole.
Qed.

Lemma index_head (c : ascii) (s : string) :
  index (String c s) 0 = Some (String c EmptyString).
Proof. reflexivity. Qed.

Lemma slice_prefix (s t : string) :
  slice (s ++ t) 0 (String.length s) = s.
Proof.
  unfold slice. rewrite Nat.sub_0_r.
  induction s as [| c s IH]; simpl.
  - destruct t; reflexivity.
  - now rewrite IH.
Qed.

Lemma slice_suffix (s t : string) :
  slice (s ++ t) (String.length s) (String.length (s ++ t)) = t.
Proof.
  unfold slice. induction s as [| c s IH]; simpl.
  - rewrite Nat.sub_0_r. apply substring_whole.
  - exact IH.
Qed.

Lemma string_length_app (s t : string) :
  String.length (s ++ t) = String.length s + String.length t.
Proof. induction s as [| c s IH]; simpl; [reflexivity | now rewrite IH]. Qed.

Lemma slice_split (s : string) :
  forall n, n <= String.length s ->
    (slice s 0 n ++ slice s n (String.length s))%string = s.
Proof.
  unfold slice. induction s as [| c s IH]; intros n Hn.
  - simpl in Hn. assert (n = 0) by lia. subst. reflexivity.
  - destruct n as [| n].
    + simpl. now rewrite substring_whole.
    + simpl in Hn. specialize (IH n ltac:(lia)).
      rewrite Nat.sub_0_r in IH. simpl. now rewrite IH.
Qed.

(* ===================================================================== *)
(** ** Laws of the computations *)
(* ===================================================================== *)

Section Laws.
Context {W : Type} {limit : ArrayLimit}.

Implicit Types (fuel : nat) (w : W) (inp s : string).

Lemma bindC_done {A B} (c : Comp A) (k : A -> Comp B) fuel w a w' :
  c fuel w = Done a w' -> bindC c k fuel w = k a fuel w'.
Proof. intros H. unfold bindC. now rewrite H. Qed.

Lemma bindC_throw {A B} (c : Comp A) (k : A -> Comp B) fuel w e w' :
  c fuel w = Throw e w' -> bindC c k fuel w = Throw e w'.
Proof. intros H. unfold bindC. now rewrite H. Qed.

Lemma bindC_out_of_fuel {A B} (c : Comp A) (k : A -> Comp B) fuel w :
  c fuel w = OutOfFuel -> bindC c k fuel w = OutOfFuel.
Proof. intros H. unfold bindC. now rewrite H. Qed.

Lemma bindC_inv {A B} (c : Comp A) (k : A -> Comp B) fuel w b w' :
  bindC c k fuel w = Done b w' ->
  exists a w1, c fuel w = Done a w1 /\ k a fuel w1 = Done b w'.
Proof.
  unfold bindC. destruct (c fuel w) as [a w1 | e w1 |]; try discriminate.
  intros H. now exists a, w1.
Qed.

Lemma bindC_assoc {A B C} (c : Comp A) (k : A -> Comp B) (h : B -> Comp C)
    fuel w :
  bindC (bindC c k) h fuel w = bindC c (fun a => bindC (k a) h) fuel w.
Proof. unfold bindC. now destruct (c fuel w). Qed.

Lemma Returns_ret {A} (a : A) w : Returns (ret a) w a w.
Proof. now exists 0. Qed.

Lemma Returns_bindC {A B} (c : Comp A) (k : A -> Comp B) w a w1 b w2 :
  Returns c w a w1 -> Returns (k a) w1 b w2 -> Returns (bindC c k) w b w2.
Proof.
  intros [n Hn] [m Hm]. exists (Nat.max n m). intros fuel Hfuel.
  unfold bindC. rewrite Hn by lia. apply Hm. lia.
Qed.

Lemma Returns_unique {A} (c : Comp A) w a1 w1 a2 w2 :
  Returns c w a1 w1 -> Returns c w a2 w2 -> a1 = a2 /\ w1 = w2.
Proof.
  intros [n Hn] [m Hm].
  pose proof (Hn (Nat.max n m) ltac:(lia)) as H1.
  pose proof (Hm (Nat.max n m) ltac:(lia)) as H2.
  rewrite H1 in H2. now inversion H2.
Qed.

Lemma Throws_bindC {A B} (c : Comp A) (k : A -> Comp B) w e w' :
  Throws c w e w' -> Throws (bindC c k) w e w'.
Proof.
  intros [n Hn]. exists n. intros fuel Hfuel. apply bindC_throw. now apply Hn.
Qed.


Lemma Returns_not_Diverges {A} (c : Comp A) w a w' :
  Returns c w a w' -> ~ Diverges c w.
Proof.
  intros [n Hn] Hd. specialize (Hn n (le_n n)). rewrite (Hd n) in Hn.
  discriminate.
Qed.

(* ===================================================================== *)
(** ** Single characters: [take], [peek], [sat], [takeDigit] *)
(* ===================================================================== *)

Lemma take_nil fuel w : take "" fuel w = Done [] w.
Proof. reflexivity. Qed.

Lemma take_cons c s fuel w :
  take (String c s) fuel w = Done [(String c "", s)] w.
Proof.
  unfold take, call. simpl Nat.ltb. cbv iota.
  rewrite index_head, slice_from_tail. reflexivity.
Qed.

Lemma peek_spec s fuel w :
  peek s fuel w =
  Done [(match s with "" => "" | String c _ => String c "" end, s)] w.
Proof. destruct s; reflexivity. Qed.


Lemma sat_nil pred fuel w : sat pred "" fuel w = Done [] w.
Proof. reflexivity. Qed.

Lemma sat_cons pred c rest fuel w :
  sat pred (String c rest) fuel w =
  Done (if pred (String c "") then [(String c "", rest)] else []) w.
Proof.
  unfold sat, bind, call at 1. unfold bindC. rewrite take_cons.
  simpl parserHasFailed. cbv iota.
  destruct (pred (String c "")); reflexivity.
Qed.

(** C7. [sat(pred)(s)] succeeds exactly when [s] is not empty and [pred]
    holds of its first character; it then yields that character and
    consumes that one unit and nothing more.  In every other case the
    outcome is the plain failure: what [take] consumed is dropped. *)
Theorem sat_succeeds_iff_first_satisfies (pred : string -> bool) s fuel w :
  ((exists v rest w', sat pred s fuel w = Done [(v, rest)] w')
     <-> first_satisfies pred s)
  /\ (first_satisfies pred s ->
        exists x, index s 0 = Some x
               /\ sat pred s fuel w = Done [(x, slice_from s 1)] w
               /\ String.length s = S (String.length (slice_from s 1)))
  /\ (~ first_satisfies pred s -> sat pred s fuel w = Done [] w).
Proof.
  unfold first_satisfies. destruct s as [| c rest].
  - rewrite sat_nil. repeat split.
    + intros (v & r & w' & H). discriminate.
    + intros (x & H & _). discriminate.
    + intros (x & H & _). discriminate.
  - rewrite sat_cons, index_head, slice_from_tail.
    destruct (pred (String c "")) eqn:Hp; repeat split.
    + intros _. now exists (String c "").
    + intros _. now exists (String c ""), rest, w.
    + intros _. now exists (String c "").
    + intros H. exfalso. apply H. now exists (String c "").
    + intros (v & r & w' & H). discriminate.
    + intros (x & Hx & Hpx). inversion Hx; subst. congruence.
    + intros (x & Hx & Hpx). inversion Hx; subst. congruence.
Qed.

(** C8. Left identity of sequencing: [bind(pure(v), f)(s)] is [f(v)(s)]. *)
Theorem bind_pure_left_identity {A B} (v : A) (f : A -> Parser B) s fuel w :
  bind (pure v) f s fuel w = f v s fuel w.
Proof. reflexivity. Qed.

Lemma bind_empty_fails {A B} (f : A -> Parser B) s fuel w :
  bind empty f s fuel w = Done [] w.
Proof. reflexivity. Qed.

Section TakeDigit.
Variable number : Type.
Variable Number : string -> number.

(** C10. [takeDigit] fails exactly on the empty input; on any other input it
    succeeds with [Number] of the first character, whatever that
    character is, and consumes that one character. *)
Theorem takeDigit_fails_iff_empty s fuel w :
  (takeDigit Number s fuel w = Done [] w <-> s = "")
  /\ takeDigit Number s fuel w =
     Done (match s with
           | "" => []
           | String c rest => [(Number (String c ""), rest)]
           end) w.
Proof.
  assert (E : takeDigit Number s fuel w =
              Done (match s with
                    | "" => []
                    | String c rest => [(Number (String c ""), rest)]
                    end) w).
  { destruct s as [| c rest]; [reflexivity |].
    unfold takeDigit, liftAs, fmap, phead, call at 1. unfold bindC.
    rewrite take_cons. reflexivity. }
  split; [| exact E]. rewrite E.
  destruct s; split; intros H; try reflexivity; discriminate.
Qed.

End TakeDigit.

(* ===================================================================== *)
(** ** Extraction: [unpack] *)
(* ===================================================================== *)

(** C5, amended.  [unpack(p)(s)] returns the value parsed when [p(s)]
    succeeds with the empty remainder, and [undefined] in every other
    case: a failure of [p], or a success that leaves input over.  So the
    result is a value other than [undefined] exactly when [p(s)] succeeds
    with the empty remainder and a value that is not [undefined]; where
    the value parsed is [undefined], the result is [undefined] in every
    case.  For a parser none of whose values is [undefined], [unpack(p)(s)]
    returns a value if and only if [p(s)] succeeds with the empty
    remainder, and the value is the one parsed. *)
Theorem unpack_value_iff_full_parse {T} {J : JsValue T} (p : Parser T)
    s fuel w :
  unpack p s fuel w =
    match p s fuel w with
    | Done [] w' => Done None w'
    | Done ((v, rest) :: _) w' =>
        Done (if (rest =? "")%string then or_undefined v else None) w'
    | Throw e w' => Throw e w'
    | OutOfFuel => OutOfFuel
    end
  /\ (forall v w',
        unpack p s fuel w = Done (Some v) w' <->
        is_undefined v = false
        /\ exists tl, p s fuel w = Done ((v, "") :: tl) w')
  /\ ((forall v : T, is_undefined v = false) ->
      forall v w',
        unpack p s fuel w = Done (Some v) w' <->
        exists tl, p s fuel w = Done ((v, "") :: tl) w').
Proof.
  assert (E : unpack p s fuel w =
    match p s fuel w with
    | Done [] w' => Done None w'
    | Done ((v, rest) :: _) w' =>
        Done (if (rest =? "")%string then or_undefined v else None) w'
    | Throw e w' => Throw e w'
    | OutOfFuel => OutOfFuel
    end).
  { unfold unpack, bindC. destruct (p s fuel w) as [r w' | e w' |]; try reflexivity.
    destruct r as [| [v rest] tl]; [reflexivity |].
    simpl. destruct (rest =? "")%string; reflexivity. }
  split; [exact E |].
  assert (G : forall v w',
        unpack p s fuel w = Done (Some v) w' <->
        is_undefined v = false
        /\ exists tl, p s fuel w = Done ((v, "") :: tl) w');
    [| split; [exact G |];
       intros Hdef v w'; rewrite G; split;
       [intros [_ H]; exact H | intros H; split; [apply Hdef | exact H]]].
  intros v w'. rewrite E.
  destruct (p s fuel w) as [r w1 | e w1 |].
  - destruct r as [| [v1 rest] tl].
    + split; [discriminate | intros [_ [tl H]]; discriminate].
    + destruct (String.eqb_spec rest "") as [-> | Hne]; split.
      * unfold or_undefined. destruct (is_undefined v1) eqn:Hu;
          [discriminate |].
        intros H. inversion H; subst. split; [exact Hu | now exists tl].
      * intros [Hu [tl' H]]. inversion H; subst.
        unfold or_undefined. now rewrite Hu.
      * discriminate.
      * intros [_ [tl' H]]. inversion H; subst. congruence.
  - split; [discriminate | intros [_ [tl H]]; discriminate].
  - split; [discriminate | intros [_ [tl H]]; discriminate].
Qed.

(* ===================================================================== *)
(** ** Ordered choice: [force], [alt] *)
(* ===================================================================== *)

Lemma force_deferred {T} (t : Comp (Parser T)) fuel w :
  force (Deferred t) fuel w = (q <- t ;; ret (IsParser q)) fuel w.
Proof. reflexivity. Qed.

Lemma force_unary {T} (body : string -> Comp (ParserRes T)) fuel w :
  force (Immediate (Fn1 body)) fuel w = Done (IsParser (Fn1 body)) w.
Proof. reflexivity. Qed.

Lemma force_nullary {T} (body : Comp (ParserRes T)) fuel w :
  force (Immediate (Fn0 body)) fuel w = (r <- body ;; ret (IsList r)) fuel w.
Proof. reflexivity. Qed.

Lemma parserHasFailed_false_iff {T} (r : ParserRes T) :
  parserHasFailed r = false <-> r <> [].
Proof.
  destruct r; unfold parserHasFailed; simpl; split; intros H;
    congruence || discriminate.
Qed.

(** When the first parser succeeds its outcome and store are the result,
    whatever the second argument is: it is neither forced nor run. *)
Lemma alt_first_succeeds {T} (p : Parser T) (q : LazyVal T) s fuel w r w' :
  p s fuel w = Done r w' -> r <> [] -> alt p q s fuel w = Done r w'.
Proof.
  intros Hp Hr. unfold alt, call at 1. unfold bindC. rewrite Hp.
  apply parserHasFailed_false_iff in Hr. now rewrite Hr.
Qed.

(** When the first parser fails, a deferred second one is forced, once, and
    run on the same input. *)
Lemma alt_first_fails_deferred {T} (p : Parser T) (t : Comp (Parser T))
    s fuel w w' :
  p s fuel w = Done [] w' ->
  alt p (Deferred t) s fuel w = (q <- t ;; q s) fuel w'.
Proof.
  intros Hp. unfold alt, call at 1. unfold bindC at 1. rewrite Hp.
  cbn [parserHasFailed List.length Nat.eqb]. unfold bindC at 1.
  rewrite force_deferred. unfold bindC. destruct (t fuel w'); reflexivity.
Qed.

(** When the first parser fails, a second one written with a parameter is
    run on the same input. *)
Lemma alt_first_fails_unary {T} (p : Parser T)
    (body : string -> Comp (ParserRes T)) s fuel w w' :
  p s fuel w = Done [] w' ->
  alt p (Immediate (Fn1 body)) s fuel w = body s fuel w'.
Proof.
  intros Hp. unfold alt, call at 1. unfold bindC at 1. rewrite Hp.
  reflexivity.
Qed.

(** When the first parser fails, a second one written without a parameter
    is taken for a thunk: its body runs, and the list it returns is then
    applied as if it were the parser. *)
Lemma alt_first_fails_nullary {T} (p : Parser T)
    (body : Comp (ParserRes T)) s fuel w w' :
  p s fuel w = Done [] w' ->
  alt p (Immediate (Fn0 body)) s fuel w =
  (r <- body ;; throw TypeError) fuel w'.
Proof.
  intros Hp. unfold alt, call at 1. unfold bindC at 1. rewrite Hp.
  cbn [parserHasFailed List.length Nat.eqb]. unfold bindC at 1.
  rewrite force_nullary. unfold bindC. destruct (body fuel w'); reflexivity.
Qed.

Lemma isImmediate_iff (t : JsShape) :
  isImmediate t = true <-> ~ (typeof t = "function" /\ length t = Some 0).
Proof.
  unfold isImmediate, neq0. destruct t as [ty len]; simpl.
  destruct (String.eqb_spec ty "function") as [-> | Hty]; simpl.
  - destruct len as [[| n] |]; simpl; split; intros H;
      try reflexivity; try discriminate.
    + exfalso. apply H. now split.
    + intros [_ E]. discriminate.
    + intros [_ E]. discriminate.
  - split; [intros _ [E _]; contradiction | reflexivity].
Qed.

(** C9. [isImmediate] takes a value for an immediate parser exactly when it
    is not a function of declared arity zero.  The parser [empty()] is such
    a function: passed as it is for the second argument of [alt], it is
    called without argument when the first parser fails, the list it
    returns comes back from [force] in place of a parser, and applying that
    list to the input is a type error instead of a failure. *)
Theorem alt_immediate_empty_is_type_error :
  (forall t : JsShape,
      isImmediate t = true <->
      ~ (typeof t = "function" /\ length t = Some 0))
  /\ (forall T : Type,
        isImmediate (shape_of (Immediate (@empty W T))) = false)
  /\ (forall (T : Type) (p : Parser T) s fuel w w',
        p s fuel w = Done [] w' ->
        force (Immediate (@empty W T)) fuel w' = Done (IsList []) w'
        /\ alt p (Immediate empty) s fuel w = Throw TypeError w').
Proof.
  split; [exact isImmediate_iff |]. split; [reflexivity |].
  intros T p s fuel w w' Hp. split; [reflexivity |].
  unfold empty. erewrite alt_first_fails_nullary by exact Hp. reflexivity.
Qed.

Lemma Index_alt_agrees {T} (p : Parser T) (t : Comp (Parser T)) s fuel w :
  Index.alt p t s fuel w = alt p (Deferred t) s fuel w.
Proof.
  unfold Index.alt, alt, parserHasFailed. cbn [call]. unfold bindC.
  destruct (p s fuel w) as [r w' | e w' |]; try reflexivity.
  destruct (List.length r =? 0)%nat; [| reflexivity].
  rewrite force_deferred. unfold bindC.
  destruct (t fuel w'); reflexivity.
Qed.

(* ===================================================================== *)
(** ** Repetition: [many], [some] *)
(* ===================================================================== *)

Lemma many_unfold {T} (p : Parser T) s fuel w :
  many p s fuel w =
  match p s fuel w with
  | Done out w' => many_while p fuel out s [] w'
  | Throw e w' => Throw e w'
  | OutOfFuel => OutOfFuel
  end.
Proof. reflexivity. Qed.

Lemma many_is_many_from {T} (p : Parser T) s :
  call (many p) s = many_from (W := W) p s [].
Proof. reflexivity. Qed.

(** [push] below the limit and at the limit. *)
Lemma push_within {T} (result : list T) v :
  (N.of_nat (List.length result) < array_limit)%N ->
  push result v = Some (result ++ [v]).
Proof.
  intros H. unfold push. apply N.ltb_lt in H. now rewrite H.
Qed.

Lemma push_full {T} (result : list T) v :
  (array_limit <= N.of_nat (List.length result))%N ->
  push result v = None.
Proof.
  intros H. unfold push. apply N.ltb_ge in H. now rewrite H.
Qed.

Lemma push_cases {T} (result : list T) v :
  ((N.of_nat (List.length result) < array_limit)%N
   /\ push result v = Some (result ++ [v]))
  \/ ((array_limit <= N.of_nat (List.length result))%N
      /\ push result v = None).
Proof.
  destruct (N.lt_ge_cases (N.of_nat (List.length result)) array_limit) as [H | H].
  - left. split; [exact H | now apply push_within].
  - right. split; [exact H | now apply push_full].
Qed.

Lemma push_some_inv {T} (result : list T) v r :
  push result v = Some r -> r = result ++ [v].
Proof.
  unfold push. destruct (N.of_nat (List.length result) <? array_limit)%N;
    [| discriminate].
  intros H. now inversion H.
Qed.

Lemma Returns_Throws_bindC {A B} (c : Comp A) (k : A -> Comp B)
    w a w1 e w2 :
  Returns c w a w1 -> Throws (k a) w1 e w2 -> Throws (bindC c k) w e w2.
Proof.
  intros [n Hn] [m Hm]. exists (Nat.max n m). intros fuel Hfuel.
  unfold bindC. rewrite Hn by lia. apply Hm. lia.
Qed.

Lemma within_limit_0 : within_limit 0.
Proof. unfold within_limit. simpl. apply N.le_0_l. Qed.

(** The loop never hands back anything but one pair. *)
Lemma many_while_done {T} (p : Parser T) fuel :
  forall out cur acc w r w',
    many_while p fuel out cur acc w = Done r w' ->
    exists vs rest, r = [(vs, rest)].
Proof.
  induction fuel as [| k IH]; intros out cur acc w r w' H.
  - destruct out as [| [v s1] tl]; simpl in H; [| discriminate].
    inversion H. now exists acc, cur.
  - destruct out as [| [v s1] tl]; simpl in H.
    + inversion H. now exists acc, cur.
    + destruct (push acc v) as [acc' |]; [| discriminate].
      destruct (p s1 k w) as [out' w1 | e w1 |]; try discriminate.
      exact (IH _ _ _ _ _ _ H).
Qed.

Lemma many_done {T} (p : Parser T) s fuel w r w' :
  many p s fuel w = Done r w' -> exists vs rest, r = [(vs, rest)].
Proof.
  rewrite many_unfold.
  destruct (p s fuel w) as [out w1 | e w1 |]; try discriminate.
  apply many_while_done.
Qed.

(** [many] never fails. *)
Lemma many_never_fails {T} (p : Parser T) s fuel w w' :
  many p s fuel w <> Done [] w'.
Proof.
  intros H. destruct (many_done _ _ _ _ H) as (vs & rest & E). discriminate.
Qed.

(** The loop at a failure of the parser, and at a success. *)
Lemma many_from_stop {T} (p : Parser T) s acc w w' :
  Returns (p s) w [] w' -> Returns (many_from p s acc) w [(acc, s)] w'.
Proof.
  intros [n Hn]. exists n. intros fuel Hfuel. unfold many_from.
  rewrite (Hn fuel Hfuel). now destruct fuel.
Qed.

Lemma many_from_full {T} (p : Parser T) s acc w v s1 tl w1 :
  Returns (p s) w ((v, s1) :: tl) w1 ->
  (array_limit <= N.of_nat (List.length acc))%N ->
  Throws (many_from p s acc) w RangeError w1.
Proof.
  intros [n Hn] Hfull. exists (Nat.max n 1). intros fuel Hfuel.
  unfold many_from. rewrite Hn by lia.
  destruct fuel as [| k]; [lia |].
  cbn [many_while]. now rewrite push_full.
Qed.

Lemma many_from_step {T} (p : Parser T) s acc w v s1 tl w1 n :
  (forall fuel, n <= fuel -> p s fuel w = Done ((v, s1) :: tl) w1) ->
  (N.of_nat (List.length acc) < array_limit)%N ->
  forall k, n <= S k ->
    many_from p s acc (S k) w = many_from p s1 (acc ++ [v]) k w1.
Proof.
  intros Hn Hlt k Hk. unfold many_from. rewrite Hn by lia.
  cbn [many_while]. now rewrite push_within.
Qed.

Lemma many_from_step_returns {T} (p : Parser T) s acc w v s1 tl w1 r w' :
  Returns (p s) w ((v, s1) :: tl) w1 ->
  (N.of_nat (List.length acc) < array_limit)%N ->
  Returns (many_from p s1 (acc ++ [v])) w1 r w' ->
  Returns (many_from p s acc) w r w'.
Proof.
  intros [n Hn] Hlt [m Hm]. exists (Nat.max n (S m)). intros fuel Hfuel.
  destruct fuel as [| k]; [lia |].
  rewrite (@many_from_step _ p s acc w v s1 tl w1 n Hn Hlt k) by lia.
  apply Hm. lia.
Qed.

Lemma many_from_step_throws {T} (p : Parser T) s acc w v s1 tl w1 e w' :
  Returns (p s) w ((v, s1) :: tl) w1 ->
  (N.of_nat (List.length acc) < array_limit)%N ->
  Throws (many_from p s1 (acc ++ [v])) w1 e w' ->
  Throws (many_from p s acc) w e w'.
Proof.
  intros [n Hn] Hlt [m Hm]. exists (Nat.max n (S m)). intros fuel Hfuel.
  destruct fuel as [| k]; [lia |].
  rewrite (@many_from_step _ p s acc w v s1 tl w1 n Hn Hlt k) by lia.
  apply Hm. lia.
Qed.

(** Once the repetition has an end, the loop reaches it if the array can
    hold the values, and throws at the first value it cannot hold. *)
Lemma repeats_many_from {T} (p : Parser T) s w vs rest w' :
  Repeats p s w vs rest w' ->
  forall acc, within_limit (List.length acc) ->
    (within_limit (List.length acc + List.length vs) ->
     Returns (many_from p s acc) w [(acc ++ vs, rest)] w')
    /\ (~ within_limit (List.length acc + List.length vs) ->
        exists w'', Throws (many_from p s acc) w RangeError w'').
Proof.
  induction 1 as [s w w' Hr | s w v s1 tl w1 vs rest w' Hr _ IH];
    intros acc Hacc.
  - split.
    + intros _. rewrite app_nil_r. now apply many_from_stop.
    + intros Hn. exfalso. apply Hn. simpl. now rewrite Nat.add_0_r.
  - destruct (push_cases acc v) as [[Hlt _] | [Hfull _]].
    + assert (Hacc' : within_limit (List.length (acc ++ [v]))).
      { unfold within_limit. rewrite length_app. simpl. lia. }
      destruct (IH (acc ++ [v]) Hacc') as [IH1 IH2].
      assert (E : List.length (acc ++ [v]) + List.length vs
                  = List.length acc + List.length (v :: vs)).
      { rewrite length_app. simpl. lia. }
      rewrite E in IH1, IH2. rewrite <- app_assoc in IH1. split.
      * intros Hw. eapply many_from_step_returns; eauto.
      * intros Hw. destruct (IH2 Hw) as [w'' Ht]. exists w''.
        eapply many_from_step_throws; eauto.
    + split.
      * intros Hw. exfalso. unfold within_limit in Hw. simpl in Hw. lia.
      * intros _. exists w1. eapply many_from_full; eauto.
Qed.

Lemma many_of_repeats {T} (p : Parser T) s w vs rest w' :
  Repeats p s w vs rest w' -> within_limit (List.length vs) ->
  Returns (many p s) w [(vs, rest)] w'.
Proof.
  intros H Hw. rewrite many_is_many_from.
  exact (proj1 (repeats_many_from H [] within_limit_0) Hw).
Qed.

Lemma many_overflows {T} (p : Parser T) s w vs rest w' :
  Repeats p s w vs rest w' -> ~ within_limit (List.length vs) ->
  exists w'', Throws (many p s) w RangeError w''.
Proof.
  intros H Hw. rewrite many_is_many_from.
  exact (proj2 (repeats_many_from H [] within_limit_0) Hw).
Qed.

Lemma some_of_many {T} (p : Parser T) s w vs rest w' :
  Returns (many p s) w [(vs, rest)] w' ->
  Returns (some p s) w (some_of vs rest) w'.
Proof.
  intros H. unfold some, call.
  eapply Returns_bindC; [exact H |].
  destruct vs; apply Returns_ret.
Qed.

Lemma some_throws {T} (p : Parser T) s w e w' :
  Throws (many p s) w e w' -> Throws (some p s) w e w'.
Proof. intros H. unfold some, call. now apply Throws_bindC. Qed.

(** [some] on one run: what it makes of the outcome of [many]. *)
Lemma some_of_many_run {T} (p : Parser T) s fuel w vs rest w' :
  many p s fuel w = Done [(vs, rest)] w' ->
  some p s fuel w = Done (some_of vs rest) w'.
Proof.
  intros H. unfold some. cbn [call]. unfold bindC. rewrite H.
  now destruct vs.
Qed.

Lemma some_run_inv {T} (p : Parser T) s fuel w r w' :
  some p s fuel w = Done r w' ->
  exists vs rest,
    many p s fuel w = Done [(vs, rest)] w' /\ r = some_of vs rest.
Proof.
  intros H. unfold some, call in H.
  destruct (bindC_inv _ _ _ _ H) as (r0 & w1 & Hm & Hk).
  destruct (many_done _ _ _ _ Hm) as (vs & rest & ->).
  exists vs, rest. destruct vs; cbn in Hk; inversion Hk; subst; now split.
Qed.

Lemma some_of_nil {T} (vs : list T) rest : some_of vs rest = [] <-> vs = [].
Proof. destruct vs; split; intros E; reflexivity || discriminate. Qed.



Lemma repeats_of_failure {T} (p : Parser T) s w vs rest w' w1 :
  Repeats p s w vs rest w' -> Returns (p s) w [] w1 ->
  vs = [] /\ rest = s /\ w' = w1.
Proof.
  intros H Hf. destruct H as [s w w' H | s w v s1 tl w2 vs rest w' H _].
  - destruct (Returns_unique H Hf) as [_ E]. now subst.
  - destruct (Returns_unique H Hf) as [E _]. discriminate.
Qed.









(** C4, amended.  For every parser [p] and input [s]: [many(p)(s)] never
    returns a Failure.  When [p] fails at [s], it is a Success carrying
    the empty sequence with remainder [s] unchanged, and [some(p)(s)] is a
    Failure.  When [p] succeeds [n] times in a row from [s] and then
    fails, with [n] no more than an array holds elements, [many(p)(s)] is
    a Success carrying the [n] values in order with the remainder at the
    last success, and [some(p)(s)] is that outcome if [n] is not zero;
    with [n] over the limit, both throw [RangeError].  Whenever
    [many(p)(s)] returns, [some(p)(s)] returns: a Failure exactly when the
    sequence is empty, the outcome of [many(p)(s)] otherwise. *)
Theorem many_collects_and_some_needs_one {T} (p : Parser T) s w :
  (forall fuel w1, many p s fuel w <> Done [] w1)
  /\ (forall w', Returns (p s) w [] w' ->
        Returns (many p s) w [([], s)] w' /\ Returns (some p s) w [] w')
  /\ (forall vs rest w', Repeats p s w vs rest w' ->
        (within_limit (List.length vs) ->
           Returns (many p s) w [(vs, rest)] w'
           /\ Returns (some p s) w (some_of vs rest) w')
        /\ (~ within_limit (List.length vs) ->
            exists w'', Throws (many p s) w RangeError w''
                        /\ Throws (some p s) w RangeError w''))
  /\ (forall fuel r w', many p s fuel w = Done r w' ->
        exists vs rest,
          r = [(vs, rest)]
          /\ some p s fuel w = Done (some_of vs rest) w'
          /\ (some_of vs rest = [] <-> vs = []))
  /\ (forall fuel w', some p s fuel w = Done [] w' <->
        exists rest, many p s fuel w = Done [([], rest)] w').
Proof.
  split; [intros fuel w1; apply many_never_fails |].
  split.
  { intros w' Hf.
    pose proof (many_of_repeats (Repeats_stop p s Hf) within_limit_0) as Hm.
    split; [exact Hm | exact (some_of_many Hm)]. }
  split.
  { intros vs rest w' Hrep. split.
    - intros Hw. pose proof (many_of_repeats Hrep Hw) as Hm.
      split; [exact Hm | now apply some_of_many].
    - intros Hw. destruct (many_overflows Hrep Hw) as (w'' & Ht).
      exists w''. split; [exact Ht | now apply some_throws]. }
  split.
  { intros fuel r w' Hm.
    destruct (many_done _ _ _ _ Hm) as (vs & rest & ->).
    exists vs, rest. split; [reflexivity |].
    split; [now apply some_of_many_run | apply some_of_nil]. }
  intros fuel w'. split.
  - intros H. destruct (some_run_inv _ _ _ _ H) as (vs & rest & Hm & E).
    symmetry in E. apply some_of_nil in E. subst vs. now exists rest.
  - intros [rest Hm]. exact (some_of_many_run _ _ _ _ Hm).
Qed.

(* ===================================================================== *)
(** ** [alts]: what is forced, and when *)
(* ===================================================================== *)

Lemma alts_construction {T} (rest : list (Comp (Parser T))) :
  forall (first : Comp (Parser T)) fuel w,
    alts (first :: rest) fuel w =
    (p <- first ;; ret (alts_from p rest)) fuel w.
Proof.
  unfold alts, alts_from.
  induction rest as [| t rest IH]; intros first fuel w; cbn [fold_left].
  - unfold bindC, ret. destruct (first fuel w); reflexivity.
  - rewrite IH. unfold bindC, ret. destruct (first fuel w); reflexivity.
Qed.

Lemma alts_from_call {T} (rest : list (Comp (Parser T))) :
  forall (p : Parser T) inp fuel w,
    alts_from p rest inp fuel w =
    (res <- p inp ;; try_rest res rest inp) fuel w.
Proof.
  unfold alts_from.
  induction rest as [| t rest IH]; intros p inp fuel w;
    cbn [fold_left try_rest].
  - unfold bindC, ret. destruct (p inp fuel w); reflexivity.
  - rewrite IH. unfold alt. cbn [call]. unfold bindC at 1 2 4.
    destruct (p inp fuel w) as [res w1 | e w1 |]; try reflexivity.
    destruct (parserHasFailed res) eqn:Hres.
    + unfold bindC at 1. rewrite force_deferred. unfold bindC, ret.
      destruct (t fuel w1) as [q w2 | e w2 |]; try reflexivity.
    + unfold ret at 1. cbv beta.
      destruct rest as [| t' rest']; cbn [try_rest]; [reflexivity |].
      now rewrite Hres.
Qed.

(** C3, amended.  Building [alts(t1, ..., tn)] forces the first alternative,
    once, and no other.  The parser built runs that first parser on its
    input and then goes through the others in order: each is forced at
    most once in a call, and only when every alternative before it has
    failed on that input. *)
Theorem alts_forces_first_then_on_demand {T}
    (first : Comp (Parser T)) (rest : list (Comp (Parser T))) :
  (forall fuel w,
      alts (first :: rest) fuel w =
      (p <- first ;; ret (alts_from p rest)) fuel w)
  /\ (forall (p : Parser T) inp fuel w,
        alts_from p rest inp fuel w =
        (res <- p inp ;; try_rest res rest inp) fuel w).
Proof.
  split; [apply alts_construction | apply alts_from_call].
Qed.

Lemma Index_alts_construction {T} (rest : list (Comp (Parser T))) :
  forall (first : Comp (Parser T)) fuel w,
    Index.alts (first :: rest) fuel w =
    (p <- first ;; ret (fold_left (fun acc curr => Index.alt acc curr) rest p))
      fuel w.
Proof.
  unfold Index.alts.
  induction rest as [| t rest IH]; intros first fuel w; cbn [fold_left].
  - unfold bindC, ret. destruct (first fuel w); reflexivity.
  - rewrite IH. unfold bindC, ret. destruct (first fuel w); reflexivity.
Qed.

(* ===================================================================== *)
(** ** At most one outcome *)
(* ===================================================================== *)


Ltac done_inv H :=
  unfold ret in H; inversion H; subst; clear H; simpl; lia.

Lemma AtMostOne_pure {T} (a : T) : AtMostOne (W := W) (pure a).
Proof. intros inp fuel w r w' H. cbn in H. done_inv H. Qed.

Lemma AtMostOne_empty {T} : AtMostOne (W := W) (@empty W T).
Proof. intros inp fuel w r w' H. cbn in H. done_inv H. Qed.

Lemma AtMostOne_fmap {A B} (fn : A -> B) (p : Parser A) :
  AtMostOne (W := W) (fmap fn p).
Proof.
  intros inp fuel w r w' H. unfold fmap in H. cbn [call] in H.
  apply bindC_inv in H as (res & w1 & _ & Hk).
  destruct res as [| [v out] tl]; cbn in Hk; done_inv Hk.
Qed.

Lemma AtMostOne_bind {A B} (p : Parser A) (f : A -> Parser B) :
  (forall v, AtMostOne (W := W) (f v)) -> AtMostOne (W := W) (bind p f).
Proof.
  intros Hf inp fuel w r w' H. unfold bind in H. cbn [call] in H.
  apply bindC_inv in H as (res & w1 & _ & Hk).
  destruct res as [| [v out] tl];
    cbn [parserHasFailed List.length Nat.eqb] in Hk.
  - done_inv Hk.
  - exact (Hf v _ _ _ _ _ Hk).
Qed.

Lemma AtMostOne_ap {A B} (pf : Parser (A -> B)) (pa : Parser A) :
  AtMostOne (W := W) (ap pf pa).
Proof. apply AtMostOne_bind. intros fn. apply AtMostOne_fmap. Qed.

Lemma AtMostOne_reduce_ap {As : list Type} {T} :
  forall (acc : Parser (arrows As T)) (fns : Parsers As),
    AtMostOne (W := W) acc -> AtMostOne (W := W) (reduce_ap acc fns).
Proof.
  induction As as [| A As IH]; intros acc fns Hacc; cbn [reduce_ap].
  - exact Hacc.
  - apply IH. apply AtMostOne_ap.
Qed.

Lemma AtMostOne_liftAs {A As T} (fn : arrows (A :: As) T)
    (fns : Parsers (A :: As)) :
  AtMostOne (W := W) (liftAs (As := A :: As) (T := T) fn fns).
Proof.
  unfold liftAs. destruct As as [| A' As'].
  - apply AtMostOne_fmap.
  - apply AtMostOne_reduce_ap. apply AtMostOne_fmap.
Qed.

Lemma AtMostOne_alt_immediate {T} (p q : Parser T) :
  AtMostOne (W := W) p -> AtMostOne (W := W) q -> AtMostOne (W := W) (alt p (Immediate q)).
Proof.
  intros Hp Hq inp fuel w r w' H. unfold alt in H. cbn [call] in H.
  apply bindC_inv in H as (res & w1 & Hres & Hk).
  destruct res as [| o tl];
    cbn [parserHasFailed List.length Nat.eqb] in Hk.
  - apply bindC_inv in Hk as (f & w2 & Hf & Ha).
    destruct q as [body | body].
    + rewrite force_unary in Hf. inversion Hf; subst.
      exact (Hq _ _ _ _ _ Ha).
    + rewrite force_nullary in Hf.
      apply bindC_inv in Hf as (l & w3 & _ & Hl).
      inversion Hl; subst. discriminate.
  - inversion Hk; subst. exact (Hp _ _ _ _ _ Hres).
Qed.

Lemma AtMostOne_alt_deferred {T} (p : Parser T) (t : Comp (Parser T)) :
  AtMostOne (W := W) p ->
  (forall fuel w q w', t fuel w = Done q w' -> AtMostOne (W := W) q) ->
  AtMostOne (W := W) (alt p (Deferred t)).
Proof.
  intros Hp Ht inp fuel w r w' H. unfold alt in H. cbn [call] in H.
  apply bindC_inv in H as (res & w1 & Hres & Hk).
  destruct res as [| o tl];
    cbn [parserHasFailed List.length Nat.eqb] in Hk.
  - apply bindC_inv in Hk as (f & w2 & Hf & Ha).
    rewrite force_deferred in Hf.
    apply bindC_inv in Hf as (q & w3 & Hq & Hr).
    inversion Hr; subst. exact (Ht _ _ _ _ Hq _ _ _ _ _ Ha).
  - inversion Hk; subst. exact (Hp _ _ _ _ _ Hres).
Qed.

Lemma AtMostOne_alts_from {T} (rest : list (Comp (Parser T))) :
  (forall t, In t rest ->
             forall fuel w q w', t fuel w = Done q w' -> AtMostOne (W := W) q) ->
  forall p, AtMostOne (W := W) p -> AtMostOne (W := W) (alts_from p rest).
Proof.
  unfold alts_from. induction rest as [| t rest IH]; intros Hrest p Hp;
    cbn [fold_left].
  - exact Hp.
  - apply IH.
    + intros t' Hin. apply Hrest. now right.
    + apply AtMostOne_alt_deferred; [exact Hp |]. apply Hrest. now left.
Qed.

Lemma AtMostOne_alts {T} (parsers : list (Comp (Parser T))) fuel w p w' :
  (forall t, In t parsers ->
             forall fuel w q w', t fuel w = Done q w' -> AtMostOne (W := W) q) ->
  alts parsers fuel w = Done p w' ->
  AtMostOne (W := W) p.
Proof.
  intros Hall H. destruct parsers as [| first rest]; [discriminate |].
  rewrite alts_construction in H.
  apply bindC_inv in H as (p1 & w1 & Hfirst & Hr).
  inversion Hr; subst.
  apply AtMostOne_alts_from.
  - intros t Hin. apply Hall. now right.
  - exact (Hall first (or_introl eq_refl) _ _ _ _ Hfirst).
Qed.

Lemma AtMostOne_many {T} (p : Parser T) : AtMostOne (W := W) (many p).
Proof.
  intros inp fuel w r w' H.
  destruct (many_done _ _ _ _ H) as (vs & rest & ->). simpl. lia.
Qed.

Lemma AtMostOne_some {T} (p : Parser T) : AtMostOne (W := W) (some p).
Proof.
  intros inp fuel w r w' H. unfold some in H. cbn [call] in H.
  apply bindC_inv in H as (res & w1 & Hm & Hk).
  destruct (many_done _ _ _ _ Hm) as (vs & rest & ->).
  destruct vs; cbn in Hk; done_inv Hk.
Qed.

Lemma AtMostOne_take : AtMostOne (W := W) take.
Proof.
  intros inp fuel w r w' H. destruct inp as [| c s].
  - rewrite take_nil in H. done_inv H.
  - rewrite take_cons in H. done_inv H.
Qed.

Lemma AtMostOne_peek : AtMostOne (W := W) peek.
Proof. intros inp fuel w r w' H. rewrite peek_spec in H. done_inv H. Qed.

Lemma AtMostOne_sat pred : AtMostOne (W := W) (sat pred).
Proof.
  intros inp fuel w r w' H. destruct inp as [| c s].
  - rewrite sat_nil in H. done_inv H.
  - rewrite sat_cons in H. destruct (pred (String c "")); done_inv H.
Qed.

Lemma AtMostOne_sentence str : AtMostOne (W := W) (sentence str).
Proof.
  intros inp fuel w r w' H. unfold sentence in H. cbn [call] in H.
  destruct (String.length inp <? String.length str)%nat; [done_inv H |].
  cbv zeta in H.
  destruct (slice inp 0 (String.length str) =? str)%string; done_inv H.
Qed.

(** C1. A parser built from the exported primitives and combinators never
    returns a list of more than one outcome, on any input. *)
Theorem built_parser_at_most_one_outcome {T} (p : Parser T) :
  Built p ->
  forall inp fuel w r w', p inp fuel w = Done r w' -> List.length r <= 1.
Proof.
  intros HB. change (AtMostOne p).
  induction HB.
  - apply AtMostOne_pure.
  - apply AtMostOne_empty.
  - now apply AtMostOne_bind.
  - apply AtMostOne_ap.
  - assumption.
  - apply AtMostOne_liftAs.
  - now apply AtMostOne_alt_immediate.
  - now apply AtMostOne_alt_deferred.
  - eapply AtMostOne_alts; eassumption.
  - apply AtMostOne_many.
  - apply AtMostOne_some.
  - apply AtMostOne_take.
  - apply AtMostOne_peek.
  - apply AtMostOne_sat.
  - apply AtMostOne_sat.
  - apply AtMostOne_sentence.
  - apply AtMostOne_sat.
  - apply AtMostOne_liftAs.
Qed.

(* ===================================================================== *)
(** ** Literals: [sentence] *)
(* ===================================================================== *)

Lemma sentence_matches str rest fuel w :
  sentence str (str ++ rest)%string fuel w = Done [(str, rest)] w.
Proof.
  unfold sentence. cbn [call]. rewrite string_length_app.
  replace (String.length str + String.length rest <? String.length str)%nat
    with false by (symmetry; apply Nat.ltb_ge; lia).
  cbv zeta. rewrite <- string_length_app, slice_prefix, slice_suffix.
  now rewrite String.eqb_refl.
Qed.

Lemma sentence_done str inp fuel w r w' :
  sentence str inp fuel w = Done r w' ->
  w' = w /\
  (r = [] \/ exists rest, inp = (str ++ rest)%string /\ r = [(str, rest)]).
Proof.
  unfold sentence. cbn [call].
  destruct (Nat.ltb_spec (String.length inp) (String.length str)) as [Hlt | Hge].
  - intros H. inversion H. now split; [| left].
  - cbv zeta.
    destruct (String.eqb_spec (slice inp 0 (String.length str)) str) as [E | _].
    + intros H. inversion H; subst w' r. split; [reflexivity | right].
      exists (slice inp (String.length str) (String.length inp)).
      rewrite E. split; [| reflexivity].
      rewrite <- E at 1. symmetry. now apply slice_split.
    + intros H. inversion H. now split; [| left].
Qed.

(* ===================================================================== *)
(** ** Facts about particular parsers *)
(* ===================================================================== *)

Lemma take_halts : Halts (W := W) take.
Proof.
  intros s w. destruct s as [| c s].
  - exists [], w, 0. intros fuel _. apply take_nil.
  - exists [(String c "", s)], w, 0. intros fuel _. apply take_cons.
Qed.

Lemma take_consuming : Consuming (W := W) take.
Proof.
  intros s w v rest tl w' [n Hn]. specialize (Hn n (le_n n)).
  destruct s as [| c s].
  - rewrite take_nil in Hn. discriminate.
  - rewrite take_cons in Hn. inversion Hn; subst. simpl. lia.
Qed.


Lemma repeats_take s w : Repeats take s w (chars s) "" w.
Proof.
  induction s as [| c s IH].
  - apply Repeats_stop. exists 0. intros fuel _. apply take_nil.
  - change (chars (String c s)) with (String c "" :: chars s).
    eapply Repeats_step; [| exact IH].
    exists 0. intros fuel _. apply take_cons.
Qed.

Lemma length_chars s : List.length (chars s) = String.length s.
Proof.
  induction s as [| c s IH]; [reflexivity |].
  change (chars (String c s)) with (String c "" :: chars s).
  simpl. now rewrite IH.
Qed.

Lemma length_string_of_length n : String.length (string_of_length n) = n.
Proof. induction n as [| n IH]; [reflexivity |]. simpl. now rewrite IH. Qed.

(** [many(take)] on an input with more characters than an array holds. *)
Lemma many_take_overflows s w :
  ~ within_limit (String.length s) ->
  exists w', Throws (many take s) w RangeError w'
             /\ Throws (some take s) w RangeError w'.
Proof.
  intros H. rewrite <- length_chars in H.
  destruct (many_overflows (repeats_take s w) H) as (w' & Ht).
  exists w'. split; [exact Ht | now apply some_throws].
Qed.

End Laws.

(* ===================================================================== *)
(** ** The repository's tests, run on the model *)
(* ===================================================================== *)


Example test_pure : run (pure "input" "<html>") = Done [("input", "<html>")] tt.
Proof. reflexivity. Qed.

Example test_empty : run (empty (T := string) "input") = Done [] tt.
Proof. reflexivity. Qed.

Example test_bind_two_takes :
  run (bind take (fun x => bind take (fun y => pure (x ++ y)%string)) "<html>")
  = Done [("<h", "tml>")] tt.
Proof. reflexivity. Qed.

Example test_liftAs_fails_midway :
  run (liftAs (As := [string : Type; string : Type; string : Type])
         (fun x y z => (x ++ y ++ z)%string)
         (PCons take (PCons take (PCons take PNil))) "i")
  = Done [] tt.
Proof. reflexivity. Qed.

Example test_take : run (take "<html>") = Done [("<", "html>")] tt.
Proof. reflexivity. Qed.

Example test_peek_empty : run (peek "") = Done [("", "")] tt.
Proof. reflexivity. Qed.

Example test_char :
  run (char "*" "**") = Done [("*", "*")] tt
  /\ run (char "*" "-") = Done [] tt
  /\ run (char "*" "") = Done [] tt.
Proof. repeat split. Qed.

Example test_alt :
  run (alt take (Deferred (ret empty)) "<html>") = Done [("<", "html>")] tt
  /\ run (alt empty (Immediate take) "<html>") = Done [("<", "html>")] tt
  /\ run (alt (char "*") (Immediate (char "-")) "&") = Done [] tt.
Proof. repeat split. Qed.

Example test_alts :
  let p := alts [ret numeric; ret alpha; ret (char "*")] in
  run (q <- p ;; q "0123") = Done [("0", "123")] tt
  /\ run (q <- p ;; q "abc") = Done [("a", "bc")] tt
  /\ run (q <- p ;; q "*****") = Done [("*", "****")] tt
  /\ run (q <- p ;; q "---") = Done [] tt
  /\ run (q <- p ;; q "") = Done [] tt.
Proof. repeat split. Qed.

Example test_many :
  run (many take "Words.") = Done [(["W"; "o"; "r"; "d"; "s"; "."], "")] tt
  /\ run (many (sat (fun c => negb (c =? ".")%string)) "Words.More.")
     = Done [(["W"; "o"; "r"; "d"; "s"], ".More.")] tt
  /\ run (many (sat (fun c => negb (c =? ".")%string)) ".Words.")
     = Done [([], ".Words.")] tt.
Proof. repeat split. Qed.

Example test_some :
  run (some (sat (fun c => negb (c =? ".")%string)) "Words.More.")
  = Done [(["W"; "o"; "r"; "d"; "s"], ".More.")] tt
  /\ run (some (sat (fun c => negb (c =? ".")%string)) ".Words.") = Done [] tt.
Proof. repeat split. Qed.

Example test_sentence :
  run (sentence "<p>" "<p>") = Done [("<p>", "")] tt
  /\ run (sentence "<p>" "<html>") = Done [] tt
  /\ run (sentence "<p>" "") = Done [] tt.
Proof. repeat split. Qed.

Example test_whitespace :
  run (whitespace " ") = Done [(" ", "")] tt
  /\ run (whitespace tab) = Done [(tab, "")] tt
  /\ run (whitespace nl) = Done [(nl, "")] tt.
Proof. repeat split. Qed.

Example test_token :
  run (token (sentence "<html>")
         ("  " ++ tab ++ "  " ++ nl ++ " <html>  " ++ tab ++ " " ++ nl)%string)
  = Done [("<html>", "")] tt
  /\ run (token (sentence "<html>")
            ("  " ++ tab ++ " " ++ nl ++ " <p> " ++ tab ++ "  " ++ nl)%string)
     = Done [] tt.
Proof. repeat split. Qed.

(** [takeDigit] takes whatever comes first, digit or not. *)
Example takeDigit_any_character :
  forall (number : Type) (Number : string -> number),
    run (takeDigit Number "x1") = Done [(Number "x", "1")] tt.
Proof. reflexivity. Qed.

Example test_unpack :
  run (unpack (sentence "<p>") "<p>") = Done (Some "<p>") tt
  /\ run (unpack (sentence "<p>") "<p></p>") = Done None tt
  /\ run (unpack (sentence "<p>") "<div>") = Done None tt.
Proof. repeat split. Qed.

(* ===================================================================== *)
(** ** Counting probes *)
(* ===================================================================== *)


(** With a probe in place of the second parser: not forced when the first
    succeeds, forced once when it fails. *)
Example alt_probe_untouched_on_success :
  alt take (Deferred (probe 7 (char "x"))) "abc" 0 [] = Done [("a", "bc")] [].
Proof. reflexivity. Qed.

Example alt_probe_forced_on_failure :
  alt (char "x") (Deferred (probe 7 take)) "abc" 0 [] = Done [("a", "bc")] [7].
Proof. reflexivity. Qed.

(** C3, as stated, fails: before any input is supplied, building
    [alts(t1, t2, t3)] has forced [t1]; the log holds its probe. *)
Lemma alts_construction_forces_first_probe :
  alts [probe 1 numeric; probe 2 alpha; probe 3 (char "*")] 0 []
  = Done (alts_from numeric [probe 2 alpha; probe 3 (char "*")]) [1].
Proof. reflexivity. Qed.

(** Each call of the parser built forces the alternatives it needs, once
    each, and the first one never again. *)
Example alts_probes_per_call :
  let build := alts [probe 1 numeric; probe 2 alpha; probe 3 (char "*")] in
  (p <- build ;; p "0123") 0 [] = Done [("0", "123")] [1]
  /\ (p <- build ;; p "abc") 0 [] = Done [("a", "bc")] [1; 2]
  /\ (p <- build ;; p "***") 0 [] = Done [("*", "**")] [1; 2; 3]
  /\ (p <- build ;; _ <- p "abc" ;; p "***") 0 []
     = Done [("*", "**")] [1; 2; 2; 3].
Proof. repeat split. Qed.

(** In one call, the probes that fire are a prefix of the alternatives after
    the first, in their order: each at most once, none after the first
    success, and none at all when the alternatives tried so far have
    already succeeded. *)
Lemma try_rest_probes_prefix {T} (qs : list (nat * Parser (W := list nat) T)) :
  (forall iq, In iq qs -> Quiet (snd iq)) ->
  forall res inp fuel log,
  exists r k,
    try_rest res (probes qs) inp fuel log
    = Done r (log ++ firstn k (map fst qs))
    /\ (parserHasFailed res = false -> k = 0 /\ r = res).
Proof.
  induction qs as [| [i q] qs IH]; intros Hq res inp fuel log.
  - exists res, 0. cbn. rewrite app_nil_r. now split.
  - cbn [probes map try_rest fst snd].
    destruct (parserHasFailed res) eqn:Hres.
    + unfold bindC at 1. unfold probe at 1. unfold bindC at 1.
      destruct (Hq (i, q) (or_introl eq_refl) inp fuel (log ++ [i]))
        as [r' Hr'].
      cbn [snd] in Hr'. rewrite Hr'.
      destruct (IH (fun iq H => Hq iq (or_intror H)) r' inp fuel (log ++ [i]))
        as (r & k & Hrun & _).
      exists r, (S k). split; [| discriminate].
      fold (probes qs). rewrite Hrun. cbn [firstn].
      now rewrite <- app_assoc.
    + destruct (IH (fun iq H => Hq iq (or_intror H)) res inp fuel log)
        as (r & k & Hrun & Hk).
      destruct (Hk Hres) as [-> ->].
      exists res, 0. split; [| now split].
      fold (probes qs). rewrite Hrun. reflexivity.
Qed.

(* ===================================================================== *)
(** ** The claims at particular inputs *)
(* ===================================================================== *)

(** C1 at [token(sentence("<html>"))] on [" <html> "]. *)
Lemma built_parser_at_most_one_outcome_witness :
  List.length [("<html>", "")] <= 1.
Proof.
  exact (@built_parser_at_most_one_outcome unit _ string
           (token (sentence "<html>"))
           (Built_token (Built_sentence "<html>"))
           " <html> " 5 tt [("<html>", "")] tt eq_refl).
Defined.

(** C2 at [alt(take, empty())("")].  The first parser fails; the second,
    run on the same input, would fail as well, so the claim gives a
    failure.  The code takes [empty()], a function of no parameter, for a
    thunk, calls it, and applies the list it returns: a type error. *)
Theorem alt_takes_nullary_parser_for_thunk :
  take (W := unit) "" 0 tt = Done [] tt
  /\ empty (W := unit) (T := string) "" 0 tt = Done [] tt
  /\ isImmediate (shape_of (Immediate (empty (W := unit) (T := string)))) = false
  /\ alt take (Immediate empty) "" 0 tt = Throw TypeError tt.
Proof. repeat split. Qed.

(** C4, as stated, fails on a parser that keeps the documented
    obligation to consume: [take] returns on every input and every
    success of it leaves a shorter remainder, yet [many(take)] and
    [some(take)] do not succeed on an input with more characters than an
    array holds elements.  They throw [RangeError]: at the language's bound
    on an input of [2^32] characters, and on a host with any other bound
    on an input of one character more than the bound. *)
Lemma many_take_past_array_limit :
  (Halts (W := unit) take /\ Consuming (W := unit) take)
  /\ (exists w',
        Throws (many take (string_of_length (N.to_nat 4294967296)))
               tt RangeError w'
        /\ Throws (some take (string_of_length (N.to_nat 4294967296)))
                  tt RangeError w')
  /\ (forall limit : ArrayLimit,
        exists w',
          Throws (many (limit := limit) take
                    (string_of_length (S (N.to_nat array_limit))))
                 tt RangeError w').
Proof.
  split; [split; [apply take_halts | apply take_consuming] |].
  split.
  - apply many_take_overflows. rewrite length_string_of_length.
    unfold within_limit. rewrite N2Nat.id. intros H. apply H. reflexivity.
  - intros limit.
    destruct (@many_take_overflows unit limit
                (string_of_length (S (N.to_nat array_limit))) tt)
      as (w' & H & _); [| now exists w'].
    rewrite length_string_of_length. unfold within_limit. lia.
Qed.

(** C4, amended, at [many(take)] and [some(take)] on ["ab"]. *)
Lemma many_collects_and_some_needs_one_witness :
  Returns (W := unit) (many take "ab") tt [(["a"; "b"], "")] tt
  /\ Returns (W := unit) (some take "ab") tt [(["a"; "b"], "")] tt.
Proof.
  refine (proj1 (proj1 (proj2 (proj2
            (@many_collects_and_some_needs_one unit _ string take "ab" tt)))
            ["a"; "b"] "" tt (repeats_take "ab" tt)) _).
  unfold within_limit. simpl. discriminate.
Defined.



(** C9 at [alt(take, empty())("")]. *)
Lemma alt_immediate_empty_is_type_error_witness :
  force (W := unit) (Immediate (empty (T := string))) 0 tt = Done (IsList []) tt
  /\ alt (W := unit) take (Immediate empty) "" 0 tt = Throw TypeError tt.
Proof.
  exact (proj2 (proj2 (@alt_immediate_empty_is_type_error unit))
           string take "" 0 tt tt eq_refl).
Defined.

(** C5, as stated, fails on a parser whose value is [undefined], as that
    of [tap] is.  On ["x"] the parser succeeds and leaves ["x"], and
    [unpack] returns [undefined], which is the value parsed, although
    input is left.  On [""] the parse is complete, and [unpack] returns
    what it returns for the failure of [empty()]. *)
Lemma unpack_tap_is_undefined_either_way :
  (tap (W := unit) (fun _ => ret tt) "x" 0 tt = Done [(tt, "x")] tt
   /\ unpack (tap (fun _ => ret tt)) "x" 0 tt = Done (or_undefined tt) tt)
  /\ (tap (W := unit) (fun _ => ret tt) "" 0 tt = Done [(tt, "")] tt
      /\ unpack (tap (fun _ => ret tt)) "" 0 tt = Done None tt
      /\ unpack (W := unit) (T := unit) empty "" 0 tt = Done None tt).
Proof. repeat split. Qed.

(** C5, amended, at [unpack(sentence("<p>"))("<p>")]: a value other than
    [undefined] comes back, so the parser has succeeded with nothing left
    over. *)
Lemma unpack_value_iff_full_parse_witness :
  is_undefined "<p>" = false
  /\ exists tl, sentence (W := unit) "<p>" "<p>" 0 tt = Done (("<p>", "") :: tl) tt.
Proof.
  exact (proj1 (proj1 (proj2 (@unpack_value_iff_full_parse unit string _
                         (sentence "<p>") "<p>" 0 tt)) "<p>" tt) eq_refl).
Defined.

(** C7 at [sat(c => c === "0")("0B")]. *)
Lemma sat_succeeds_iff_first_satisfies_witness :
  exists x, index "0B" 0 = Some x
         /\ sat (W := unit) (eq "0") "0B" 0 tt = Done [(x, slice_from "0B" 1)] tt
         /\ String.length "0B" = S (String.length (slice_from "0B" 1)).
Proof.
  exact (proj1 (proj2 (@sat_succeeds_iff_first_satisfies unit (eq "0") "0B" 0 tt))
           (ex_intro _ "0" (conj eq_refl eq_refl))).
Defined.

(* ===================================================================== *)
(** ** The algebra: [fmap], [bind], [ap], [liftAs] *)
(* ===================================================================== *)

Section Coverage.
Context {W : Type} {limit : ArrayLimit}.

Implicit Types (fuel : nat) (w : W) (inp s : string).

Lemma same_parser_refl {T} (p : Parser (W := W) T) : same_parser p p.
Proof. now intros inp fuel w. Qed.

Lemma same_parser_sym {T} (p q : Parser (W := W) T) :
  same_parser p q -> same_parser q p.
Proof. intros H inp fuel w. now rewrite H. Qed.

Lemma same_parser_trans {T} (p q r : Parser (W := W) T) :
  same_parser p q -> same_parser q r -> same_parser p r.
Proof. intros H1 H2 inp fuel w. now rewrite H1. Qed.

Ltac by_cases_on p inp fuel w :=
  unfold bind, fmap, pure; cbn [call]; unfold bindC, ret;
  destruct (call p inp fuel w) as [[| [? ?] ?] ? | ? ? |];
  cbn [parserHasFailed List.length Nat.eqb call];
  try reflexivity.

Lemma bind_cong {A B} (p q : Parser (W := W) A) (f g : A -> Parser B) :
  same_parser p q -> (forall v, same_parser (f v) (g v)) ->
  same_parser (bind p f) (bind q g).
Proof.
  intros Hp Hf inp fuel w. unfold bind. cbn [call]. unfold bindC.
  rewrite Hp.
  destruct (call q inp fuel w) as [[| [v out] tl] w1 | e w1 |];
    cbn [parserHasFailed List.length Nat.eqb]; try reflexivity.
  apply Hf.
Qed.

Lemma bind_assoc {A B C} (p : Parser (W := W) A) (f : A -> Parser B)
    (g : B -> Parser C) :
  same_parser (bind (bind p f) g) (bind p (fun x => bind (f x) g)).
Proof. intros inp fuel w. by_cases_on p inp fuel w. Qed.

Lemma bind_fmap {A B C} (fn : A -> B) (p : Parser (W := W) A)
    (k : B -> Parser C) :
  same_parser (bind (fmap fn p) k) (bind p (fun x => k (fn x))).
Proof. intros inp fuel w. by_cases_on p inp fuel w. Qed.

Lemma fmap_as_bind {A B} (fn : A -> B) (p : Parser (W := W) A) :
  same_parser (fmap fn p) (bind p (fun x => pure (fn x))).
Proof. intros inp fuel w. by_cases_on p inp fuel w. Qed.

Lemma fmap_fmap {A B C} (f : A -> B) (g : B -> C) (p : Parser (W := W) A) :
  same_parser (fmap (fun x => g (f x)) p) (fmap g (fmap f p)).
Proof. intros inp fuel w. by_cases_on p inp fuel w. Qed.

(** X1. Sequencing is associative: [bind(bind(p, f), g)] and
    [bind(p, x => bind(f(x), g))] do the same on every input, whatever
    [p] returns. *)
Theorem bind_is_associative {A B C} (p : Parser (W := W) A)
    (f : A -> Parser B) (g : B -> Parser C) inp fuel w :
  bind (bind p f) g inp fuel w = bind p (fun x => bind (f x) g) inp fuel w.
Proof. apply bind_assoc. Qed.

(** [bind] goes on with the first outcome only. *)
Lemma bind_pure_first_outcome {T} (p : Parser (W := W) T) inp fuel w :
  bind p pure inp fuel w = (res <- p inp ;; ret (firstn 1 res)) fuel w.
Proof. by_cases_on p inp fuel w. Qed.

(** X2. Right identity of sequencing, for a parser that returns at most
    one outcome: [bind(p, pure)] does what [p] does. *)
Theorem bind_pure_right_identity {T} (p : Parser (W := W) T) :
  AtMostOne p ->
  forall inp fuel w, bind p pure inp fuel w = p inp fuel w.
Proof.
  intros H1 inp fuel w. rewrite bind_pure_first_outcome. unfold bindC, ret.
  destruct (call p inp fuel w) as [res w1 | e w1 |] eqn:E; try reflexivity.
  pose proof (H1 _ _ _ _ _ E) as Hlen.
  destruct res as [| o [| o' tl]]; simpl in *; try reflexivity; lia.
Qed.

(** X3. [fmap] respects composition, and it is [bind] followed by
    [pure]. *)
Theorem fmap_composes_and_is_bind_pure {A B C} (f : A -> B) (g : B -> C)
    (p : Parser (W := W) A) inp fuel w :
  fmap (fun x => g (f x)) p inp fuel w = fmap g (fmap f p) inp fuel w
  /\ fmap f p inp fuel w = bind p (fun x => pure (f x)) inp fuel w.
Proof. split; [apply fmap_fmap | apply fmap_as_bind]. Qed.

Lemma reduce_ap_as_bind (As : list Type) :
  forall (A T : Type) (acc : Parser (W := W) (arrows (A :: As) T))
         (fns : Parsers (A :: As)),
    same_parser (reduce_ap acc fns)
                (bind acc (fun g => @Index.liftAs_from W As A T g fns)).
Proof.
  induction As as [| A' As' IH]; intros A T acc fns.
  - apply same_parser_refl.
  - change (reduce_ap acc fns)
      with (reduce_ap (As := A' :: As') (T := T)
              (ap acc (phead fns)) (ptail fns)).
    eapply same_parser_trans; [apply IH |].
    unfold ap.
    eapply same_parser_trans; [apply bind_assoc |].
    apply bind_cong; [apply same_parser_refl |].
    intros g. cbn [Index.liftAs_from]. apply bind_fmap.
Qed.

(** X4. The two revisions of [liftAs], the fold with [ap] and the nest of
    [bind], do the same on every input, for any number of parsers. *)
Theorem liftAs_agrees_with_earlier_revision {As : list Type} {T : Type}
    (fn : lifted As T) (fns : Parsers (W := W) As) inp fuel w :
  liftAs fn fns inp fuel w = Index.liftAs fn fns inp fuel w.
Proof.
  revert inp fuel w. change (same_parser (liftAs fn fns) (Index.liftAs fn fns)).
  destruct As as [| A [| A' As']].
  - apply same_parser_refl.
  - apply same_parser_refl.
  - unfold liftAs, Index.liftAs.
    eapply same_parser_trans; [apply reduce_ap_as_bind |].
    cbn [Index.liftAs_from]. apply bind_fmap.
Qed.

(* ===================================================================== *)
(** ** The primitive parsers *)
(* ===================================================================== *)

Lemma string_app_nil_r (s : string) : (s ++ "")%string = s.
Proof. induction s as [| c s IH]; simpl; [reflexivity | now rewrite IH]. Qed.

(** X5. [take] fails exactly on the empty input.  Otherwise it returns one
    outcome: a value of one character and a remainder which, put after the
    value, give the input back; the store is never touched. *)
Theorem take_splits_off_first_character s fuel w :
  exists r,
    take s fuel w = Done r w
    /\ (r = [] <-> s = "")
    /\ (forall v rest, In (v, rest) r ->
          r = [(v, rest)] /\ s = (v ++ rest)%string /\ String.length v = 1).
Proof.
  destruct s as [| c s].
  - exists []. rewrite take_nil. split; [reflexivity |].
    split; [now split |]. intros v rest [].
  - exists [(String c "", s)]. rewrite take_cons.
    split; [reflexivity |]. split; [split; discriminate |].
    intros v rest [E | []]. inversion E; subst. now repeat split.
Qed.

(** X6. [peek] never fails and never consumes: the remainder is the input.
    Its value is the empty string on the empty input, and the value of
    [take] whenever [take] succeeds. *)
Theorem peek_never_fails_never_consumes s fuel w :
  exists v,
    peek s fuel w = Done [(v, s)] w
    /\ (s = "" -> v = "")
    /\ (forall v' rest tl w',
          take s fuel w = Done ((v', rest) :: tl) w' -> v = v').
Proof.
  rewrite peek_spec. destruct s as [| c s].
  - exists "". repeat split. intros v' rest tl w' H.
    rewrite take_nil in H. discriminate.
  - exists (String c ""). split; [reflexivity |].
    split; [discriminate |]. intros v' rest tl w' H.
    rewrite take_cons in H. now inversion H.
Qed.

(** X7. [sentence(str)] always returns and leaves the store alone.  It
    succeeds exactly when the input is [str] followed by some [rest]; the
    value is then [str], the remainder [rest], and there is no other
    outcome. *)
Theorem sentence_succeeds_iff_prefix str inp fuel w :
  (exists r, sentence str inp fuel w = Done r w)
  /\ (forall v rest tl w',
        sentence str inp fuel w = Done ((v, rest) :: tl) w' <->
        v = str /\ inp = (str ++ rest)%string /\ tl = [] /\ w' = w).
Proof.
  split.
  - unfold sentence. cbn [call].
    destruct (String.length inp <? String.length str)%nat;
      [now exists [] |].
    cbv zeta.
    destruct (slice inp 0 (String.length str) =? str)%string; eexists;
      reflexivity.
  - intros v rest tl w'. split.
    + intros H. apply sentence_done in H as [-> [E | (r & -> & E)]];
        [discriminate |].
      inversion E; subst. now repeat split.
    + intros (-> & -> & -> & ->). apply sentence_matches.
Qed.

(** X8. [unpack(sentence(str))] accepts the literal and nothing else: it
    returns [str] on the input [str] and [undefined] on every other
    input, longer ones that start with [str] included. *)
Theorem unpack_sentence_accepts_exactly_literal str inp fuel w :
  unpack (sentence str) inp fuel w =
  Done (if (inp =? str)%string then Some str else None) w.
Proof.
  unfold unpack, bindC.
  destruct (String.eqb_spec inp str) as [-> | Hne].
  - rewrite <- (string_app_nil_r str) at 2. rewrite sentence_matches.
    reflexivity.
  - destruct (sentence str inp fuel w) as [r w' | e w' |] eqn:E.
    + apply sentence_done in E as [-> [-> | (rest & -> & ->)]];
        [reflexivity |].
      cbn [parserHasFailed List.length Nat.eqb].
      destruct (String.eqb_spec rest "") as [-> | Hrest]; [| reflexivity].
      now rewrite string_app_nil_r in Hne.
    + unfold sentence in E. cbn [call] in E. cbv zeta in E.
      destruct (String.length inp <? String.length str)%nat; [discriminate |].
      destruct (slice inp 0 (String.length str) =? str)%string; discriminate.
    + unfold sentence in E. cbn [call] in E. cbv zeta in E.
      destruct (String.length inp <? String.length str)%nat; [discriminate |].
      destruct (slice inp 0 (String.length str) =? str)%string; discriminate.
Qed.

(** X9. [char(c)] always returns.  It succeeds exactly when [c] is one
    character long and the input starts with it; given the empty string
    or a longer one for [c], it fails on every input. *)
Theorem char_needs_one_character c s fuel w :
  (exists r, char c s fuel w = Done r w)
  /\ (forall v rest tl w',
        char c s fuel w = Done ((v, rest) :: tl) w' <->
        (exists a, c = String a "")
        /\ v = c /\ s = (c ++ rest)%string /\ tl = [] /\ w' = w).
Proof.
  unfold char, eq. destruct s as [| a s].
  - rewrite sat_nil. split; [now exists [] |].
    intros v rest tl w'. split; [discriminate |].
    intros ([a ->] & _ & E & _). discriminate.
  - rewrite sat_cons. split; [eexists; reflexivity |].
    intros v rest tl w'. destruct (String.eqb_spec c (String a "")) as [-> | Hc].
    + split.
      * intros H. inversion H; subst. repeat split. now exists a.
      * intros (_ & -> & E & -> & ->). simpl in E. now inversion E.
    + split; [discriminate |].
      intros ([a' ->] & _ & E & _). simpl in E. inversion E; subst.
      now contradiction Hc.
Qed.

Lemma class_test_single cls a : class_test cls (String a "") = cls a.
Proof. unfold class_test. simpl. apply orb_false_r. Qed.

(** X10. A choice between two predicate-gated parsers is the parser gated
    by either predicate, whether the second is passed as a thunk or as it
    is; [aphaNumeric] takes a first character that is a letter or a
    digit. *)
Theorem alt_of_sats_is_sat_of_either (p q : string -> bool) s fuel w :
  alt (sat p) (Deferred (ret (sat q))) s fuel w
    = sat (fun x => p x || q x) s fuel w
  /\ alt (sat p) (Immediate (sat q)) s fuel w
    = sat (fun x => p x || q x) s fuel w
  /\ aphaNumeric s fuel w
    = sat (class_test (fun a => is_alpha a || is_numeric a)) s fuel w.
Proof.
  unfold aphaNumeric, alpha, numeric.
  destruct s as [| a s].
  - repeat split.
  - repeat split.
    + unfold alt. cbn [call]. unfold bindC at 1. rewrite sat_cons.
      rewrite sat_cons. destruct (p (String a "")); [reflexivity |].
      cbn [parserHasFailed List.length Nat.eqb]. unfold bindC at 1.
      rewrite force_deferred. unfold bindC, ret. cbn [apply].
      now rewrite sat_cons.
    + unfold alt. cbn [call]. unfold bindC at 1. rewrite sat_cons.
      rewrite sat_cons. destruct (p (String a "")); [reflexivity |].
      cbn [parserHasFailed List.length Nat.eqb]. unfold bindC at 1.
      unfold sat at 1, bind at 1. rewrite force_unary. cbn [apply].
      fold (bind take (fun x => if q x then pure x else @empty W string)).
      fold (sat (W := W) q). now rewrite sat_cons.
    + unfold alt. cbn [call]. unfold bindC at 1. rewrite !sat_cons.
      rewrite !class_test_single.
      destruct (is_alpha a); [reflexivity |].
      cbn [parserHasFailed List.length Nat.eqb]. unfold bindC at 1.
      rewrite force_deferred. unfold bindC, ret. cbn [apply].
      now rewrite sat_cons, class_test_single.
Qed.

(* ===================================================================== *)
(** ** Ordered choice *)
(* ===================================================================== *)

(** X11. [alt] is ordered choice when its second argument is a thunk or a
    parser written with a parameter: what the first parser returns, if
    that is a success, and otherwise the second parser, forced if it is
    deferred, on the same input and in the store the first one left.  An
    exception of the first parser goes through.  On a success of the
    first, the second argument plays no part at all. *)
Theorem alt_is_ordered_choice {T} (p : Parser (W := W) T) s fuel w :
  (forall t : Comp (Parser T),
      alt p (Deferred t) s fuel w =
      match p s fuel w with
      | Done [] w' => (q <- t ;; q s) fuel w'
      | other => other
      end)
  /\ (forall body : string -> Comp (ParserRes T),
        alt p (Immediate (Fn1 body)) s fuel w =
        match p s fuel w with
        | Done [] w' => body s fuel w'
        | other => other
        end)
  /\ (forall (q : LazyVal T) res w',
        p s fuel w = Done res w' -> res <> [] ->
        alt p q s fuel w = Done res w').
Proof.
  split; [| split].
  - intros t. destruct (call p s fuel w) as [[| o tl] w' | e w' |] eqn:E.
    + now apply alt_first_fails_deferred.
    + apply alt_first_succeeds; [exact E | discriminate].
    + unfold alt. cbn [call]. now apply bindC_throw.
    + unfold alt. cbn [call]. now apply bindC_out_of_fuel.
  - intros body. destruct (call p s fuel w) as [[| o tl] w' | e w' |] eqn:E.
    + now apply alt_first_fails_unary.
    + apply alt_first_succeeds; [exact E | discriminate].
    + unfold alt. cbn [call]. now apply bindC_throw.
    + unfold alt. cbn [call]. now apply bindC_out_of_fuel.
  - intros q res w' E Hres. now apply alt_first_succeeds.
Qed.

Lemma alt_cong {T} (p p' : Parser (W := W) T) (q : LazyVal T) :
  same_parser p p' -> same_parser (alt p q) (alt p' q).
Proof.
  intros H inp fuel w. unfold alt. cbn [call]. unfold bindC at 1 3.
  now rewrite H.
Qed.

Lemma Index_fold_agrees {T} (rest : list (Comp (Parser (W := W) T))) :
  forall p p' : Parser T,
    same_parser p p' ->
    same_parser (fold_left (fun acc curr => Index.alt acc curr) rest p)
                (alts_from p' rest).
Proof.
  unfold alts_from.
  induction rest as [| t rest IH]; intros p p' H; cbn [fold_left].
  - exact H.
  - apply IH. intros inp fuel w. rewrite Index_alt_agrees.
    now apply alt_cong.
Qed.

(** X12. The two revisions of the choice combinators agree.  [alt] with
    a thunk does what the earlier [alt], which called its second argument
    without any test, did; and for any list of thunks the two [alts]
    force the same thunk at construction, end in the same store, and
    build parsers that do the same on every input (both throw on the
    empty list). *)
Theorem choice_revisions_agree {T} :
  (forall (p : Parser (W := W) T) (t : Comp (Parser T)) s fuel w,
      Index.alt p t s fuel w = alt p (Deferred t) s fuel w)
  /\ (forall (parsers : list (Comp (Parser (W := W) T))) fuel w,
        same_construction (Index.alts parsers fuel w) (alts parsers fuel w)).
Proof.
  split; [intros; apply Index_alt_agrees |].
  intros [| first rest] fuel w.
  - now split.
  - rewrite Index_alts_construction, alts_construction. unfold bindC, ret.
    destruct (first fuel w) as [p w1 | e w1 |]; cbn.
    + split; [reflexivity |]. apply Index_fold_agrees, same_parser_refl.
    + now split.
    + exact I.
Qed.

(** X13. Choice has the always-failing parser for unit and is
    associative, thunks and their effects included: [alt(empty(), t)] is
    the parser of [t]; [alt(p, () => empty())] is [p]; and trying
    [alt(p, tq)] and then [tr] is trying [p] and then the choice between
    [tq] and [tr]. *)
Theorem alt_unit_and_associativity {T} (p : Parser (W := W) T)
    (tq tr : Comp (Parser T)) s fuel w :
  alt empty (Deferred tq) s fuel w = (q <- tq ;; q s) fuel w
  /\ alt p (Deferred (ret empty)) s fuel w = p s fuel w
  /\ alt (alt p (Deferred tq)) (Deferred tr) s fuel w
     = alt p (Deferred (q <- tq ;; ret (alt q (Deferred tr)))) s fuel w.
Proof.
  split; [| split].
  - now erewrite alt_first_fails_deferred by reflexivity.
  - destruct (call p s fuel w) as [[| o tl] w' | e w' |] eqn:E.
    + now erewrite alt_first_fails_deferred by exact E.
    + apply alt_first_succeeds; [exact E | discriminate].
    + unfold alt. cbn [call]. now apply bindC_throw.
    + unfold alt. cbn [call]. now apply bindC_out_of_fuel.
  - destruct (call p s fuel w) as [[| o tl] w1 | e w1 |] eqn:E.
    + rewrite (alt_first_fails_deferred p _ s fuel w E).
      unfold alt at 1. cbn [call]. unfold bindC at 1.
      rewrite (alt_first_fails_deferred p tq s fuel w E).
      unfold bindC, ret.
      destruct (tq fuel w1) as [q w2 | e w2 |]; reflexivity.
    + rewrite (alt_first_succeeds p _ s fuel w E) by discriminate.
      apply alt_first_succeeds; [| discriminate].
      apply alt_first_succeeds; [exact E | discriminate].
    + unfold alt at 1 3. cbn [call]. rewrite (bindC_throw _ _ _ _ E).
      apply bindC_throw. unfold alt. cbn [call]. now apply bindC_throw.
    + unfold alt at 1 3. cbn [call]. rewrite (bindC_out_of_fuel _ _ _ _ E).
      apply bindC_out_of_fuel. unfold alt. cbn [call].
      now apply bindC_out_of_fuel.
Qed.

(* ===================================================================== *)
(** ** Repetition over characters *)
(* ===================================================================== *)

Lemma concat_chars s : String.concat "" (chars s) = s.
Proof.
  induction s as [| c s IH]; [reflexivity |].
  change (chars (String c s)) with (String c "" :: chars s).
  cbn [String.concat]. destruct (chars s) eqn:E.
  - simpl in IH. subst s. reflexivity.
  - rewrite IH. reflexivity.
Qed.

(** X14. [many(take)] takes the whole input apart.  On an input with no
    more characters than an array holds elements it returns the
    characters of the input, in order, with the empty remainder, so
    [unpack(many(take))] has a value there and [some(take)] fails on the
    empty input only.  On a longer input all three throw [RangeError]. *)
Theorem many_take_takes_every_character s w :
  (within_limit (String.length s) ->
     Returns (many take s) w [(chars s, "")] w
     /\ Returns (unpack (many take) s) w (Some (chars s)) w
     /\ Returns (some take s) w (some_of (chars s) "") w)
  /\ (~ within_limit (String.length s) ->
      exists w',
        Throws (many take s) w RangeError w'
        /\ Throws (unpack (many take) s) w RangeError w'
        /\ Throws (some take s) w RangeError w')
  /\ String.concat "" (chars s) = s
  /\ (some_of (chars s) "" = [] <-> s = "").
Proof.
  split; [| split; [| split]].
  - intros Hw. rewrite <- length_chars in Hw.
    pose proof (many_of_repeats (repeats_take s w) Hw) as Hm.
    split; [exact Hm |]. split; [| now apply some_of_many].
    unfold unpack. eapply Returns_bindC; [exact Hm |]. apply Returns_ret.
  - intros Hw. destruct (many_take_overflows s w Hw) as (w' & Hm & Hs).
    exists w'. split; [exact Hm |]. split; [| exact Hs].
    unfold unpack. now apply Throws_bindC.
  - apply concat_chars.
  - destruct s; split; intros H; reflexivity || discriminate.
Qed.

Lemma repeats_sat pred s w :
  Repeats (sat pred) s w (span_values pred s) (span_rest pred s) w.
Proof.
  induction s as [| c s IH]; cbn [span_values span_rest].
  - apply Repeats_stop. exists 0. intros fuel _. apply sat_nil.
  - destruct (pred (String c "")) eqn:Hp.
    + eapply Repeats_step; [| exact IH].
      exists 0. intros fuel _. rewrite sat_cons, Hp. reflexivity.
    + apply Repeats_stop. exists 0. intros fuel _.
      rewrite sat_cons, Hp. reflexivity.
Qed.

Lemma span_values_satisfy pred s :
  Forall (fun v => pred v = true /\ String.length v = 1) (span_values pred s).
Proof.
  induction s as [| c s IH]; cbn [span_values]; [constructor |].
  destruct (pred (String c "")) eqn:Hp; constructor; [now split | exact IH].
Qed.

Lemma span_rebuild pred s :
  (String.concat "" (span_values pred s) ++ span_rest pred s)%string = s.
Proof.
  induction s as [| c s IH]; cbn [span_values span_rest]; [reflexivity |].
  destruct (pred (String c "")) eqn:Hp; [| reflexivity].
  cbn [String.concat]. destruct (span_values pred s) eqn:E.
  - simpl in *. now rewrite IH.
  - simpl. simpl in IH. now rewrite IH.
Qed.

Lemma span_rest_stops pred s a r :
  span_rest pred s = String a r -> pred (String a "") = false.
Proof.
  induction s as [| c s IH]; cbn [span_rest]; [discriminate |].
  destruct (pred (String c "")) eqn:Hp; [exact IH |].
  intros E. inversion E; subst. exact Hp.
Qed.

(** X15. [many(sat(pred))] takes the longest run of leading characters
    that satisfy [pred]: every value is one character that satisfies
    [pred], values and remainder put together are the input, and the
    remainder is empty or starts with a character that does not satisfy
    [pred].  It returns them if the run is no longer than an array holds
    elements, and throws [RangeError] if it is longer. *)
Theorem many_sat_takes_longest_prefix (pred : string -> bool) s w :
  exists vs rest,
    (within_limit (List.length vs) ->
       Returns (many (sat pred) s) w [(vs, rest)] w)
    /\ (~ within_limit (List.length vs) ->
        exists w', Throws (many (sat pred) s) w RangeError w')
    /\ Forall (fun v => pred v = true /\ String.length v = 1) vs
    /\ (String.concat "" vs ++ rest)%string = s
    /\ (forall a r, rest = String a r -> pred (String a "") = false).
Proof.
  exists (span_values pred s), (span_rest pred s).
  split; [exact (many_of_repeats (repeats_sat pred s w)) |].
  split; [exact (many_overflows (repeats_sat pred s w)) |].
  split; [apply span_values_satisfy |].
  split; [apply span_rebuild |].
  intros a r. apply span_rest_stops.
Qed.

(* ===================================================================== *)
(** ** Repetition, one run at a time *)
(* ===================================================================== *)

Lemma many_while_stops {T} (p : Parser (W := W) T) fuel :
  forall out cur acc w vs rest tl w',
    many_while p fuel out cur acc w = Done ((vs, rest) :: tl) w' ->
    (out = [] /\ rest = cur /\ w' = w)
    \/ exists k w1, k <= fuel /\ p rest k w1 = Done [] w'.
Proof.
  induction fuel as [| k IH]; intros out cur acc w vs rest tl w' H;
    destruct out as [| [v s1] tl1]; cbn [many_while] in H;
    try discriminate; try (inversion H; subst; now left).
  destruct (push acc v) as [acc' |]; [| discriminate].
  destruct (call p s1 k w) as [out' w1 | e w1 |] eqn:E; try discriminate.
  right. destruct (IH _ _ _ _ _ _ _ _ H) as [(-> & -> & ->) | (k' & w2 & Hk & Hp)].
  - exists k, w. split; [lia | exact E].
  - exists k', w2. split; [lia | exact Hp].
Qed.

(** X16. [many(p)] stops only where [p] fails: when it returns, the last
    thing it did was an application of [p] to the remainder it returns,
    and that application failed and left the store [many] ends in. *)
Theorem many_stops_where_parser_fails {T} (p : Parser (W := W) T)
    s fuel w vs rest tl w' :
  many p s fuel w = Done ((vs, rest) :: tl) w' ->
  exists k w1, k <= fuel /\ p rest k w1 = Done [] w'.
Proof.
  rewrite many_unfold.
  destruct (call p s fuel w) as [out w1 | e w1 |] eqn:E; try discriminate.
  intros H. destruct (many_while_stops _ _ _ _ _ _ H)
    as [(-> & -> & ->) | (k & w2 & Hk & Hp)].
  - exists fuel, w. split; [lia | exact E].
  - now exists k, w2.
Qed.

Lemma many_while_values {T} (p : Parser (W := W) T) fuel :
  forall out cur acc w vs rest tl w',
    many_while p fuel out cur acc w = Done ((vs, rest) :: tl) w' ->
    (out = [] /\ vs = acc /\ rest = cur)
    \/ exists v more, vs = acc ++ v :: more.
Proof.
  induction fuel as [| k IH]; intros out cur acc w vs rest tl w' H;
    destruct out as [| [v s1] tl1]; cbn [many_while] in H;
    try discriminate; try (inversion H; subst; now left).
  destruct (push acc v) as [acc' |] eqn:Hpush; [| discriminate].
  apply push_some_inv in Hpush. subst acc'.
  destruct (call p s1 k w) as [out' w1 | e w1 |] eqn:E; try discriminate.
  right. destruct (IH _ _ _ _ _ _ _ _ H) as [(_ & -> & _) | (v' & more & ->)].
  - now exists v, [].
  - exists v, (v' :: more). now rewrite <- app_assoc.
Qed.

(** X17. Whatever the parser, a result of [some(p)] is a failure or the
    result of [many(p)] with a sequence that is not empty: [some] never
    hands back an empty sequence.  It fails exactly when [many] collected
    nothing, and [many] had then returned the input as it was. *)
Theorem some_never_returns_empty_sequence {T} (p : Parser (W := W) T)
    s fuel w r w' :
  some p s fuel w = Done r w' ->
  (r = [] /\ many p s fuel w = Done [([], s)] w')
  \/ (exists v vs rest,
        r = [(v :: vs, rest)] /\ many p s fuel w = Done r w').
Proof.
  unfold some. cbn [call]. intros H.
  apply bindC_inv in H as (res & w1 & Hm & Hk).
  destruct (many_done _ _ _ _ Hm) as (vs & rest & ->).
  destruct vs as [| v vs]; cbn in Hk; unfold ret in Hk; inversion Hk; subst.
  - left. split; [reflexivity |].
    rewrite many_unfold in Hm. rewrite many_unfold.
    destruct (call p s fuel w) as [out w2 | e w2 |]; try discriminate.
    destruct (many_while_values _ _ _ _ _ _ Hm)
      as [(_ & _ & ->) | (v & more & E)]; [exact Hm |].
    now destruct (app_cons_not_nil _ _ _ E).
  - right. now exists v, vs, rest.
Qed.

(* ===================================================================== *)
(** ** [token] *)
(* ===================================================================== *)

Lemma Returns_fmap {A B} (fn : A -> B) (p : Parser (W := W) A) s w res w' :
  Returns (p s) w res w' ->
  Returns (fmap fn p s) w
    (match res with [] => [] | (v, out) :: _ => [(fn v, out)] end) w'.
Proof.
  intros H. unfold fmap. cbn [call]. eapply Returns_bindC; [exact H |].
  destruct res as [| [v out] tl]; apply Returns_ret.
Qed.

Lemma Returns_bind {A B} (p : Parser (W := W) A) (f : A -> Parser B)
    s w res w1 r w2 :
  Returns (p s) w res w1 ->
  match res with
  | [] => r = [] /\ w2 = w1
  | (v, out) :: _ => Returns (f v out) w1 r w2
  end ->
  Returns (bind p f s) w r w2.
Proof.
  intros H Hk. unfold bind. cbn [call]. eapply Returns_bindC; [exact H |].
  destruct res as [| [v out] tl].
  - destruct Hk as [-> ->]. apply Returns_ret.
  - exact Hk.
Qed.

Lemma Throws_fmap {A B} (fn : A -> B) (p : Parser (W := W) A) s w e w' :
  Throws (p s) w e w' -> Throws (fmap fn p s) w e w'.
Proof. intros H. unfold fmap. cbn [call]. now apply Throws_bindC. Qed.

Lemma Throws_bind {A B} (p : Parser (W := W) A) (f : A -> Parser B)
    s w e w' :
  Throws (p s) w e w' -> Throws (bind p f s) w e w'.
Proof. intros H. unfold bind. cbn [call]. now apply Throws_bindC. Qed.

Lemma Returns_Throws_bind {A B} (p : Parser (W := W) A) (f : A -> Parser B)
    s w v out tl w1 e w2 :
  Returns (p s) w ((v, out) :: tl) w1 ->
  Throws (f v out) w1 e w2 ->
  Throws (bind p f s) w e w2.
Proof.
  intros H Hk. unfold bind. cbn [call].
  eapply Returns_Throws_bindC; [exact H | exact Hk].
Qed.

Lemma many_whitespace_returns s w :
  within_limit (List.length (blanks s)) ->
  Returns (many whitespace s) w [(blanks s, skip_blanks s)] w.
Proof. apply many_of_repeats. apply repeats_sat. Qed.

Lemma many_whitespace_overflows s w :
  ~ within_limit (List.length (blanks s)) ->
  exists w', Throws (many whitespace s) w RangeError w'.
Proof. apply (many_overflows (repeats_sat (class_test is_blank) s w)). Qed.

(** X18. [token(p)] is [p] between blanks: the leading spaces, tabs and
    newlines are skipped, [p] runs on what follows, and on its success
    the blanks that lead its remainder are skipped as well and its value
    returned; if [p] fails there, [token(p)] fails.  This is so as long
    as neither run of blanks is longer than an array holds elements: with
    a longer run before [p] or after it, [token(p)] throws
    [RangeError]. *)
Theorem token_strips_blanks_around {T} (p : Parser (W := W) T) s w :
  (within_limit (List.length (blanks s)) ->
   forall res w',
     Returns (p (skip_blanks s)) w res w' ->
     match res with
     | [] => True
     | (v, r) :: _ => within_limit (List.length (blanks r))
     end ->
     Returns (token p s) w
       (match res with [] => [] | (v, r) :: _ => [(v, skip_blanks r)] end) w')
  /\ (~ within_limit (List.length (blanks s)) ->
      exists w', Throws (token p s) w RangeError w')
  /\ (within_limit (List.length (blanks s)) ->
      forall v r tl w',
        Returns (p (skip_blanks s)) w ((v, r) :: tl) w' ->
        ~ within_limit (List.length (blanks r)) ->
        exists w'', Throws (token p s) w RangeError w'').
Proof.
  split; [| split].
  - intros Hs res w' Hp Hr. unfold token, liftAs.
    cbn [reduce_ap phead ptail]. unfold ap.
    eapply Returns_bind.
    + eapply Returns_bind.
      * apply Returns_fmap. now apply many_whitespace_returns.
      * cbv beta iota. apply Returns_fmap. exact Hp.
    + destruct res as [| [v r] tl]; cbv beta iota.
      * now split.
      * exact (@Returns_fmap _ _ _ _ _ _ _ _ (many_whitespace_returns r w' Hr)).
  - intros Hs. destruct (many_whitespace_overflows s w Hs) as (w' & Ht).
    exists w'. unfold token, liftAs.
    cbn [reduce_ap phead ptail]. unfold ap.
    apply Throws_bind, Throws_bind, Throws_fmap. exact Ht.
  - intros Hs v r tl w' Hp Hr.
    destruct (many_whitespace_overflows r w' Hr) as (w'' & Ht).
    exists w''. unfold token, liftAs.
    cbn [reduce_ap phead ptail]. unfold ap.
    eapply Returns_Throws_bind.
    + eapply Returns_bind.
      * apply Returns_fmap. now apply many_whitespace_returns.
      * cbv beta iota. exact (@Returns_fmap _ _ _ _ _ _ _ _ Hp).
    + cbv beta iota. apply Throws_fmap. exact Ht.
Qed.

(* ===================================================================== *)
(** ** Remainders are suffixes *)
(* ===================================================================== *)

Lemma string_app_assoc (a b c : string) :
  ((a ++ b) ++ c)%string = (a ++ (b ++ c))%string.
Proof. induction a as [| x a IH]; simpl; [reflexivity | now rewrite IH]. Qed.

Lemma Suffix_refl s : Suffix s s.
Proof. now exists "". Qed.

Lemma Suffix_trans a b c : Suffix a b -> Suffix b c -> Suffix a c.
Proof.
  intros [p1 ->] [p2 ->]. exists (p2 ++ p1)%string. apply eq_sym, string_app_assoc.
Qed.

Lemma Suffix_length a b : Suffix a b -> String.length a <= String.length b.
Proof. intros [pre ->]. rewrite string_length_app. lia. Qed.

Ltac no_outcome H := unfold ret in H; inversion H; subst; intros ? ? [].

Ltac one_outcome H :=
  unfold ret in H; inversion H; subst;
  let E := fresh in intros ? ? [E | []]; inversion E; subst.

Lemma SP_pure {T} (a : T) : SuffixPreserving (W := W) (pure a).
Proof. intros inp fuel w r w' H. cbn in H. one_outcome H. apply Suffix_refl. Qed.

Lemma SP_empty {T} : SuffixPreserving (@empty W T).
Proof. intros inp fuel w r w' H. cbn in H. no_outcome H. Qed.

Lemma SP_fmap {A B} (fn : A -> B) (p : Parser (W := W) A) :
  SuffixPreserving p -> SuffixPreserving (fmap fn p).
Proof.
  intros Hp inp fuel w r w' H. unfold fmap in H. cbn [call] in H.
  apply bindC_inv in H as (res & w1 & Hres & Hk).
  destruct res as [| [v out] tl]; cbn in Hk.
  - no_outcome Hk.
  - one_outcome Hk. exact (Hp _ _ _ _ _ Hres v rest (or_introl eq_refl)).
Qed.

Lemma SP_bind {A B} (p : Parser (W := W) A) (f : A -> Parser B) :
  SuffixPreserving p -> (forall v, SuffixPreserving (f v)) ->
  SuffixPreserving (bind p f).
Proof.
  intros Hp Hf inp fuel w r w' H. unfold bind in H. cbn [call] in H.
  apply bindC_inv in H as (res & w1 & Hres & Hk).
  destruct res as [| [v out] tl];
    cbn [parserHasFailed List.length Nat.eqb] in Hk.
  - no_outcome Hk.
  - intros v' rest Hin. eapply Suffix_trans.
    + exact (Hf v _ _ _ _ _ Hk v' rest Hin).
    + exact (Hp _ _ _ _ _ Hres v out (or_introl eq_refl)).
Qed.

Lemma SP_ap {A B} (pf : Parser (W := W) (A -> B)) (pa : Parser A) :
  SuffixPreserving pf -> SuffixPreserving pa -> SuffixPreserving (ap pf pa).
Proof. intros Hf Ha. apply SP_bind; [exact Hf |]. intros fn. now apply SP_fmap. Qed.

Lemma SP_reduce_ap {As : list Type} {T} :
  forall (acc : Parser (W := W) (arrows As T)) (fns : Parsers As),
    SuffixPreserving acc -> AllSuffixPreserving fns ->
    SuffixPreserving (reduce_ap acc fns).
Proof.
  induction As as [| A As IH]; intros acc fns Hacc Hall; cbn [reduce_ap].
  - exact Hacc.
  - destruct Hall as [Hhead Htail]. apply IH; [| exact Htail].
    now apply SP_ap.
Qed.

Lemma SP_liftAs {A As T} (fn : arrows (A :: As) T)
    (fns : Parsers (W := W) (A :: As)) :
  AllSuffixPreserving fns ->
  SuffixPreserving (liftAs (As := A :: As) (T := T) fn fns).
Proof.
  intros [Hhead Htail]. unfold liftAs. destruct As as [| A' As'].
  - now apply SP_fmap.
  - apply SP_reduce_ap; [now apply SP_fmap | exact Htail].
Qed.

Lemma SP_alt_immediate {T} (p q : Parser (W := W) T) :
  SuffixPreserving p -> SuffixPreserving q ->
  SuffixPreserving (alt p (Immediate q)).
Proof.
  intros Hp Hq inp fuel w r w' H. unfold alt in H. cbn [call] in H.
  apply bindC_inv in H as (res & w1 & Hres & Hk).
  destruct res as [| o tl];
    cbn [parserHasFailed List.length Nat.eqb] in Hk.
  - apply bindC_inv in Hk as (f & w2 & Hf & Ha).
    destruct q as [body | body].
    + rewrite force_unary in Hf. inversion Hf; subst.
      exact (Hq _ _ _ _ _ Ha).
    + rewrite force_nullary in Hf.
      apply bindC_inv in Hf as (l & w3 & _ & Hl).
      inversion Hl; subst. discriminate.
  - inversion Hk; subst. exact (Hp _ _ _ _ _ Hres).
Qed.

Lemma SP_alt_deferred {T} (p : Parser (W := W) T) (t : Comp (Parser T)) :
  SuffixPreserving p ->
  (forall fuel w q w', t fuel w = Done q w' -> SuffixPreserving q) ->
  SuffixPreserving (alt p (Deferred t)).
Proof.
  intros Hp Ht inp fuel w r w' H. unfold alt in H. cbn [call] in H.
  apply bindC_inv in H as (res & w1 & Hres & Hk).
  destruct res as [| o tl];
    cbn [parserHasFailed List.length Nat.eqb] in Hk.
  - apply bindC_inv in Hk as (f & w2 & Hf & Ha).
    rewrite force_deferred in Hf.
    apply bindC_inv in Hf as (q & w3 & Hq & Hr).
    inversion Hr; subst. exact (Ht _ _ _ _ Hq _ _ _ _ _ Ha).
  - inversion Hk; subst. exact (Hp _ _ _ _ _ Hres).
Qed.

Lemma SP_alts {T} (parsers : list (Comp (Parser (W := W) T))) fuel w p w' :
  (forall t, In t parsers ->
             forall fuel w q w', t fuel w = Done q w' -> SuffixPreserving q) ->
  alts parsers fuel w = Done p w' ->
  SuffixPreserving p.
Proof.
  intros Hall H. destruct parsers as [| first rest]; [discriminate |].
  rewrite alts_construction in H.
  apply bindC_inv in H as (p1 & w1 & Hfirst & Hr).
  inversion Hr; subst. clear Hr.
  pose proof (Hall first (or_introl eq_refl) _ _ _ _ Hfirst) as Hp1.
  assert (Hrest : forall t, In t rest ->
            forall fuel w q w', t fuel w = Done q w' -> SuffixPreserving q)
    by (intros t Hin; apply Hall; now right).
  clear Hall Hfirst. revert p1 Hp1. unfold alts_from.
  induction rest as [| t rest IH]; intros p1 Hp1; cbn [fold_left].
  - exact Hp1.
  - apply IH.
    + intros t' Hin. apply Hrest. now right.
    + apply SP_alt_deferred; [exact Hp1 |]. apply Hrest. now left.
Qed.

Lemma SP_many_while {T} (p : Parser (W := W) T) :
  SuffixPreserving p ->
  forall fuel out cur acc w r w',
    (forall v rest, In (v, rest) out -> Suffix rest cur) ->
    many_while p fuel out cur acc w = Done r w' ->
    forall vs rest, In (vs, rest) r -> Suffix rest cur.
Proof.
  intros Hp. induction fuel as [| k IH]; intros out cur acc w r w' Hout H;
    destruct out as [| [v s1] tl]; cbn [many_while] in H;
    try discriminate; try (one_outcome H; apply Suffix_refl).
  destruct (push acc v) as [acc' |]; [| discriminate].
  destruct (call p s1 k w) as [out' w1 | e w1 |] eqn:E; try discriminate.
  intros vs rest Hin. eapply Suffix_trans.
  - exact (IH _ _ _ _ _ _ (Hp _ _ _ _ _ E) H vs rest Hin).
  - apply (Hout v). now left.
Qed.

Lemma SP_many {T} (p : Parser (W := W) T) :
  SuffixPreserving p -> SuffixPreserving (many p).
Proof.
  intros Hp inp fuel w r w' H. rewrite many_unfold in H.
  destruct (call p inp fuel w) as [out w1 | e w1 |] eqn:E; try discriminate.
  eapply SP_many_while; [exact Hp | exact (Hp _ _ _ _ _ E) | exact H].
Qed.

Lemma SP_some {T} (p : Parser (W := W) T) :
  SuffixPreserving p -> SuffixPreserving (some p).
Proof.
  intros Hp inp fuel w r w' H. unfold some in H. cbn [call] in H.
  apply bindC_inv in H as (res & w1 & Hm & Hk).
  pose proof (SP_many Hp) as Hsuf. specialize (Hsuf _ _ _ _ _ Hm).
  destruct (many_done _ _ _ _ Hm) as (vs & rest & ->).
  destruct vs; cbn in Hk.
  - no_outcome Hk.
  - unfold ret in Hk. inversion Hk; subst. exact Hsuf.
Qed.

Lemma SP_take : SuffixPreserving (W := W) take.
Proof.
  intros inp fuel w r w' H. destruct inp as [| c s].
  - rewrite take_nil in H. no_outcome H.
  - rewrite take_cons in H. one_outcome H. now exists (String c "").
Qed.

Lemma SP_peek : SuffixPreserving (W := W) peek.
Proof.
  intros inp fuel w r w' H. rewrite peek_spec in H. one_outcome H.
  apply Suffix_refl.
Qed.

Lemma SP_sat pred : SuffixPreserving (W := W) (sat pred).
Proof.
  intros inp fuel w r w' H. destruct inp as [| c s].
  - rewrite sat_nil in H. no_outcome H.
  - rewrite sat_cons in H. destruct (pred (String c "")).
    + one_outcome H. now exists (String c "").
    + no_outcome H.
Qed.

Lemma SP_sentence str : SuffixPreserving (W := W) (sentence str).
Proof.
  intros inp fuel w r w' H.
  apply sentence_done in H as [_ [-> | (rest & -> & ->)]].
  - intros ? ? [].
  - intros v rest' [E | []]. inversion E; subst. eexists; reflexivity.
Qed.

Scheme Built_both := Minimality for Built Sort Prop
  with AllBuilt_both := Minimality for AllBuilt Sort Prop.

Lemma built_suffix_preserving {T} (p : Parser (W := W) T) :
  Built p -> SuffixPreserving p.
Proof.
  revert T p.
  apply (Built_both
           (fun T p => SuffixPreserving (W := W) p)
           (fun As fns => AllSuffixPreserving (W := W) fns)).
  - intros. apply SP_pure.
  - intros. apply SP_empty.
  - intros. now apply SP_bind.
  - intros. now apply SP_ap.
  - intros. assumption.
  - intros. now apply SP_liftAs.
  - intros. now apply SP_alt_immediate.
  - intros. now apply SP_alt_deferred.
  - intros. eapply SP_alts; eassumption.
  - intros. now apply SP_many.
  - intros. now apply SP_some.
  - apply SP_take.
  - apply SP_peek.
  - intros. apply SP_sat.
  - intros. apply SP_sat.
  - intros. apply SP_sentence.
  - apply SP_sat.
  - intros T p _ Hp. apply SP_liftAs.
    cbn. repeat split; try exact Hp; apply SP_many, SP_sat.
  - exact I.
  - intros. now split.
Qed.

(** X19. A parser built from the exported primitives and combinators
    hands back nothing but what is left of its input: every remainder it
    returns is the input with a prefix taken off, and so never longer
    than the input. *)
Theorem built_parser_remainder_is_suffix {T} (p : Parser (W := W) T) :
  Built p ->
  forall inp fuel w r w',
    p inp fuel w = Done r w' ->
    forall v rest, In (v, rest) r ->
      Suffix rest inp /\ String.length rest <= String.length inp.
Proof.
  intros HB inp fuel w r w' H v rest Hin.
  pose proof (built_suffix_preserving HB _ _ _ H v rest Hin) as Hs.
  split; [exact Hs | now apply Suffix_length].
Qed.

(* ===================================================================== *)
(** ** [tap] *)
(* ===================================================================== *)

(** X20. [tap(f)] is transparent to the parse: it hands the input on
    whole, so a parser sequenced after it sees the input [tap] saw, and
    the only trace of it is what [f], called once with that input, did
    to the store.  It fails only by an exception of [f]. *)
Theorem tap_is_transparent {T} (tapFn : string -> Comp (W := W) unit)
    (p : Parser T) inp fuel w :
  bind (tap tapFn) (fun _ => p) inp fuel w = (_ <- tapFn inp ;; p inp) fuel w
  /\ tap tapFn inp fuel w = (_ <- tapFn inp ;; ret [(tt, inp)]) fuel w
  /\ (forall r w', tap tapFn inp fuel w = Done r w' -> r = [(tt, inp)]).
Proof.
  split; [| split].
  - unfold bind, tap. cbn [call]. unfold bindC, ret.
    destruct (tapFn inp fuel w) as [[] w1 | e w1 |]; reflexivity.
  - reflexivity.
  - intros r w' H. unfold tap in H. cbn [call] in H.
    apply bindC_inv in H as (u & w1 & _ & Hk). unfold ret in Hk.
    now inversion Hk.
Qed.

End Coverage.

(* ===================================================================== *)
(** ** The further properties at particular inputs *)
(* ===================================================================== *)

(** X2 at [bind(take, pure)("ab")]. *)
Lemma bind_pure_right_identity_witness :
  bind (W := unit) take pure "ab" 0 tt = take "ab" 0 tt.
Proof.
  exact (@bind_pure_right_identity unit string take AtMostOne_take "ab" 0 tt).
Defined.

(** X11 with a counting probe for second argument: the first parser
    succeeds and the log stays empty. *)
Lemma alt_is_ordered_choice_witness :
  alt take (Deferred (probe 7 (char "x"))) "abc" 0 [] = Done [("a", "bc")] [].
Proof.
  apply (proj2 (proj2 (@alt_is_ordered_choice (list nat) string take "abc" 0 []))).
  - reflexivity.
  - discriminate.
Defined.

(** X16 at [many(take)("ab")]: [take] fails on the remainder [""]. *)
Lemma many_stops_where_parser_fails_witness :
  exists k w1, k <= 5 /\ take (W := unit) "" k w1 = Done [] tt.
Proof.
  exact (@many_stops_where_parser_fails unit _ string take
           "ab" 5 tt ["a"; "b"] "" [] tt eq_refl).
Defined.

(** X17 at [some(take)("ab")]. *)
Lemma some_never_returns_empty_sequence_witness :
  ([(["a"; "b"], "")] = []
   /\ many (W := unit) take "ab" 5 tt = Done [([], "ab")] tt)
  \/ (exists v vs rest,
        [(["a"; "b"], "")] = [(v :: vs, rest)]
        /\ many (W := unit) take "ab" 5 tt = Done [(["a"; "b"], "")] tt).
Proof.
  exact (@some_never_returns_empty_sequence unit _ string take
           "ab" 5 tt [(["a"; "b"], "")] tt eq_refl).
Defined.

(** X18 at [token(sentence("<p>"))("  <p>  x")]. *)
Lemma token_strips_blanks_around_witness :
  Returns (W := unit) (token (sentence "<p>") "  <p>  x") tt [("<p>", "x")] tt.
Proof.
  refine (proj1 (@token_strips_blanks_around unit _ string (sentence "<p>")
                   "  <p>  x" tt) _ [("<p>", "  x")] tt _ _).
  - unfold within_limit. simpl. discriminate.
  - exists 0. intros fuel _. reflexivity.
  - unfold within_limit. simpl. discriminate.
Defined.

(** X14 at [many(take)("ab")]. *)
Lemma many_take_takes_every_character_witness :
  Returns (W := unit) (many take "ab") tt [(["a"; "b"], "")] tt
  /\ Returns (W := unit) (unpack (many take) "ab") tt (Some ["a"; "b"]) tt
  /\ Returns (W := unit) (some take "ab") tt [(["a"; "b"], "")] tt.
Proof.
  refine (proj1 (@many_take_takes_every_character unit _ "ab" tt) _).
  unfold within_limit. simpl. discriminate.
Defined.

(** X19 at [token(sentence("<html>"))(" <html> ")]. *)
Lemma built_parser_remainder_is_suffix_witness :
  Suffix "" " <html> " /\ String.length "" <= String.length " <html> ".
Proof.
  exact (@built_parser_remainder_is_suffix unit _ string
           (token (sentence "<html>"))
           (Built_token (Built_sentence "<html>"))
           " <html> " 5 tt [("<html>", "")] tt eq_refl
           "<html>" "" (or_introl eq_refl)).
Defined.
